(** * go-uvc: the device handle, the descriptor catalog and GetStream

    A shallow embedding of [device.go].  The Go methods of [Device] are
    written once, as programs over the effects the source performs (the
    reader-writer mutex, the two fields of the device, cgo calls and reads
    of native memory).  The programs are then run in two ways: to completion
    by one caller ([run]), and one effect at a time by two goroutines that
    share the device ([sys_step]).

    Conventions.
    - A C pointer is [option positive]; [None] is the nil pointer.
    - Native structs live in a store ([Mem]) addressed by pointers; reading
      through nil or through a pointer that is not allocated is a fault.
    - One iteration of a list walk reads its node once; repeated reads of
      [dev.handle] inside one critical section are one load. *)

From Stdlib Require Import Ascii String.
From Stdlib Require Import ZArith List Bool Lia.
From stdpp Require Import base option gmap pretty.
Import ListNotations.

Local Open Scope Z_scope.

(** ** Machine integers *)

Definition uint8 (z : Z) : Z := z mod 2 ^ 8.
Definition uint16 (z : Z) : Z := z mod 2 ^ 16.
Definition uint32 (z : Z) : Z := z mod 2 ^ 32.
(** Signed conversions wrap around the two's complement range. *)
Definition sint (w : Z) (z : Z) : Z := (z + 2 ^ (w - 1)) mod 2 ^ w - 2 ^ (w - 1).
Definition schar : Z → Z := sint 8.
Definition short : Z → Z := sint 16.
Definition cint : Z → Z := sint 32.
Definition uchar : Z → Z := uint8.

(** ** Pointers and native structs *)

Definition addr := positive.
Definition ptr := option addr.
Definition nil : ptr := None.

Definition is_nil (p : ptr) : bool :=
  match p with None => true | Some _ => false end.

(** [uvc_control_interface_t], the fields the source reads. *)
Record uvc_control_interface := {
  bcdUVC : Z;
  ci_bInterfaceNumber : Z;
  ci_bEndpointAddress : Z;
  dwClockFrequency : Z
}.

(** [uvc_streaming_interface_t]. *)
Record uvc_streaming_interface := {
  si_bInterfaceNumber : Z;
  si_bEndpointAddress : Z;
  bTerminalLink : Z;
  format_descs : ptr;
  si_next : ptr
}.

(** [uvc_format_desc_t].  [anon1] is the one-byte union that cgo exposes as
    a byte array; the field holds its byte 0, which is all the source reads
    ([&desc.anon1[0]]). *)
Record uvc_format_desc := {
  fmt_bDescriptorSubtype : Z;
  bFormatIndex : Z;
  bNumFrameDescriptors : Z;
  anon1 : Z;
  bDefaultFrameIndex : Z;
  bAspectRatioX : Z;
  bAspectRatioY : Z;
  bmInterlaceFlags : Z;
  bCopyProtect : Z;
  bVariableSize : Z;
  frame_descs : ptr;
  fmt_next : ptr
}.

(** [uvc_frame_desc_t].  [intervals] is the device's list of discrete frame
    intervals; the source never reads it. *)
Record uvc_frame_desc := {
  frm_bDescriptorSubtype : Z;
  bFrameIndex : Z;
  bmCapabilities : Z;
  wWidth : Z;
  wHeight : Z;
  dwMinBitRate : Z;
  dwMaxBitRate : Z;
  dwMaxVideoFrameBufferSize : Z;
  dwDefaultFrameInterval : Z;
  dwMinFrameInterval : Z;
  dwMaxFrameInterval : Z;
  dwFrameIntervalStep : Z;
  bFrameIntervalType : Z;
  dwBytesPerLine : Z;
  intervals : list Z;
  frm_next : ptr
}.

(** [uvc_device_handle_t]: what [dev.handle.info] and [dev.handle.streams]
    reach. *)
Record uvc_device_handle := {
  info_ctrl_if : uvc_control_interface;
  info_stream_ifs : ptr;
  streams : ptr
}.

(** [uvc_stream_ctrl_t] is opaque to the source: its bytes. *)
Definition uvc_stream_ctrl_t := list Z.

(** Native memory.  [devices] maps a [uvc_device_t] to its reference
    count. *)
Record Mem := {
  devices : gmap addr Z;
  handles : gmap addr uvc_device_handle;
  stream_ifs : gmap addr uvc_streaming_interface;
  format_nodes : gmap addr uvc_format_desc;
  frame_nodes : gmap addr uvc_frame_desc
}.

Definition deref {A} (heap : gmap addr A) (p : ptr) : option A :=
  match p with
  | None => None
  | Some a => heap !! a
  end.

(** ** Go values *)

Inductive error :=
| ErrDeviceClosed
| ErrDeviceNotFound
| Error_ (t : Z).

Record Device := {
  dev : ptr;
  handle : ptr
}.

Record ControlInterface := {
  ci_itf : uvc_control_interface;
  ci_BcdUVC : Z;
  ci_Number : Z;
  ci_EndpointAddress : Z;
  ci_ClockFrequency : Z
}.

Record StreamInterface := {
  si_itf : ptr;
  si_Number : Z;
  si_EndpointAddress : Z;
  si_TerminalLink : Z
}.

Record FormatDescriptor := {
  fd_desc : ptr;
  fd_Subtype : Z;
  fd_FormatIndex : Z;
  fd_NumFrameDescriptors : Z;
  fd_BitsPerPixel : Z;
  fd_Flags : Z;
  fd_DefaultFrameIndex : Z;
  fd_AspectRatioX : Z;
  fd_AspectRatioY : Z;
  fd_InterlaceFlags : Z;
  fd_CopyProtect : Z;
  fd_VariableSize : Z
}.

Record FrameDescriptor := {
  fr_desc : ptr;
  fr_Subtype : Z;
  fr_FrameIndex : Z;
  fr_Capabilities : Z;
  fr_Width : Z;
  fr_Height : Z;
  fr_MinBitRate : Z;
  fr_MaxBitRate : Z;
  fr_MaxVideoFrameBufferSize : Z;
  fr_DefaultFrameInterval : Z;
  fr_MinFrameInterval : Z;
  fr_MaxFrameInterval : Z;
  fr_FrameIntervalStep : Z;
  fr_FrameIntervalType : Z;
  fr_BytesPerLine : Z;
  fr_Intervals : list Z
}.

(** The two fields [GetStream] sets. *)
Record Stream := {
  devh : ptr;
  ctrl : uvc_stream_ctrl_t
}.

(** ** The native library *)

Inductive NativeCall :=
| C_uvc_open (d : ptr)
| C_uvc_close (h : ptr)
| C_uvc_set_ae_mode (h : ptr) (mode : Z)
| C_uvc_set_ae_priority (h : ptr) (priority : Z)
| C_uvc_set_exposure_rel (h : ptr) (exposure : Z)
| C_uvc_set_brightness (h : ptr) (brightness : Z)
| C_uvc_get_stream_ctrl_format_size (h : ptr) (format width height fps : Z)
| C_uvc_ref_device (d : ptr)
| C_uvc_unref_device (d : ptr).

(** What a call hands back: its status and, for the stream negotiation,
    the control block written through [&ctrl]. *)
Record NativeResp := {
  status : Z;
  ctrl_out : uvc_stream_ctrl_t
}.

(** The library as an oracle.  [native_open m d h] is [uvc_open(d, &cell)]
    with [cell] holding [h]: it answers a status, the new content of the
    cell and the new memory.  Every other call sees memory only. *)
Record NativeLib := {
  native_open : Mem → ptr → ptr → Z * ptr * Mem;
  native_call : NativeCall → Mem → NativeResp * Mem
}.

(** ** Shared state *)

(** [sync.RWMutex]: the number of readers inside and whether a writer is. *)
Record RWMutex := {
  readers : nat;
  writer : bool
}.

Definition unlocked : RWMutex := {| readers := 0; writer := false |}.

Record State := {
  this : Device;
  mu : RWMutex;
  mem : Mem;
  trace : list NativeCall
}.

Definition set_mu (m : RWMutex) (s : State) : State :=
  {| this := this s; mu := m; mem := mem s; trace := trace s |}.

Definition set_handle (h : ptr) (s : State) : State :=
  {| this := {| dev := dev (this s); handle := h |};
     mu := mu s; mem := mem s; trace := trace s |}.

Definition set_mem (m : Mem) (c : NativeCall) (s : State) : State :=
  {| this := this s; mu := mu s; mem := m; trace := trace s ++ [c] |}.

(** ** Effects and programs *)

Inductive Eff : Type → Type :=
| ELock : Eff unit
| EUnlock : Eff unit
| ERLock : Eff unit
| ERUnlock : Eff unit
| ELoadDev : Eff ptr
| ELoadHandle : Eff ptr
| EStoreHandle (p : ptr) : Eff unit
| ECallOpen (d : ptr) : Eff Z
| ECall (c : NativeCall) : Eff NativeResp
| EDerefHandle (p : ptr) : Eff uvc_device_handle
| EDerefStreamIf (p : ptr) : Eff uvc_streaming_interface
| EDerefFormat (p : ptr) : Eff uvc_format_desc
| EDerefFrame (p : ptr) : Eff uvc_frame_desc.

(** A program returns, performs an effect and goes on, or is a loop that
    ran out of the iterations the model gave it ([Spin]). *)
Inductive Prog (R : Type) : Type :=
| Ret (r : R)
| Spin
| Vis {X : Type} (e : Eff X) (k : X → Prog R).

Arguments Ret {R} r.
Arguments Spin {R}.
Arguments Vis {R X} e k.

Fixpoint bind {R S : Type} (p : Prog R) (f : R → Prog S) : Prog S :=
  match p with
  | Ret r => f r
  | Spin => Spin
  | Vis e k => Vis e (fun x => bind (k x) f)
  end.

Definition perform {X} (e : Eff X) : Prog X := Vis e Ret.

Global Instance Prog_ret : MRet Prog := @Ret.
Global Instance Prog_bind : MBind Prog := fun _ _ f p => bind p f.

(** [mu.Lock(); defer mu.Unlock(); body] *)
Definition locked {R} (body : Prog R) : Prog R :=
  perform ELock;; r ← body; perform EUnlock;; Ret r.

(** [mu.RLock(); defer mu.RUnlock(); body] *)
Definition rlocked {R} (body : Prog R) : Prog R :=
  perform ERLock;; r ← body; perform ERUnlock;; Ret r.

(** ** The methods of [device.go] *)

Section Methods.

(** [newError] belongs to a file of the package that is not part of this
    development: it turns a native status into a Go error, [None] being
    the nil error. *)
Variable newError : Z → option error.

Definition Open : Prog (option error) :=
  locked (
    h ← perform ELoadHandle;
    if negb (is_nil h) then Ret None
    else
      d ← perform ELoadDev;
      r ← perform (ECallOpen d);
      match newError r with
      | Some err => Ret (Some err)
      | None => Ret None
      end).

Definition SetAEMode (mode : Z) : Prog (option error) :=
  rlocked (
    h ← perform ELoadHandle;
    if is_nil h then Ret (Some ErrDeviceClosed)
    else
      r ← perform (ECall (C_uvc_set_ae_mode h (uchar mode)));
      Ret (newError (status r))).

Definition SetAEPriority (priority : Z) : Prog (option error) :=
  rlocked (
    h ← perform ELoadHandle;
    if is_nil h then Ret (Some ErrDeviceClosed)
    else
      r ← perform (ECall (C_uvc_set_ae_priority h (uchar priority)));
      Ret (newError (status r))).

Definition SetExposureRelative (exposure : Z) : Prog (option error) :=
  rlocked (
    h ← perform ELoadHandle;
    if is_nil h then Ret (Some ErrDeviceClosed)
    else
      r ← perform (ECall (C_uvc_set_exposure_rel h (schar exposure)));
      Ret (newError (status r))).

Definition SetBrightness (brightness : Z) : Prog (option error) :=
  rlocked (
    h ← perform ELoadHandle;
    if is_nil h then Ret (Some ErrDeviceClosed)
    else
      r ← perform (ECall (C_uvc_set_brightness h (short brightness)));
      Ret (newError (status r))).

Definition ControlInterface_ : Prog (option ControlInterface) :=
  rlocked (
    h ← perform ELoadHandle;
    if is_nil h then Ret None
    else
      n ← perform (EDerefHandle h);
      Ret (Some {| ci_itf := info_ctrl_if n;
                   ci_BcdUVC := uint16 (bcdUVC (info_ctrl_if n));
                   ci_Number := uint8 (ci_bInterfaceNumber (info_ctrl_if n));
                   ci_EndpointAddress := uint8 (ci_bEndpointAddress (info_ctrl_if n));
                   ci_ClockFrequency := uint32 (dwClockFrequency (info_ctrl_if n)) |})).

Definition mkStreamInterface (itf : ptr) (n : uvc_streaming_interface) : StreamInterface :=
  {| si_itf := itf;
     si_Number := uint8 (si_bInterfaceNumber n);
     si_EndpointAddress := uint8 (si_bEndpointAddress n);
     si_TerminalLink := uint8 (bTerminalLink n) |}.

(** [for itf := ...; itf != nil; itf = itf.next { ifs = append(ifs, ...) }] *)
Fixpoint StreamInterfaces_loop (fuel : nat) (itf : ptr) (ifs : list StreamInterface)
  : Prog (list StreamInterface) :=
  if is_nil itf then Ret ifs
  else
    match fuel with
    | O => Spin
    | S fuel' =>
        n ← perform (EDerefStreamIf itf);
        StreamInterfaces_loop fuel' (si_next n) (ifs ++ [mkStreamInterface itf n])
    end.

Definition StreamInterfaces (fuel : nat) : Prog (list StreamInterface) :=
  rlocked (
    h ← perform ELoadHandle;
    if is_nil h then Ret []
    else
      n ← perform (EDerefHandle h);
      StreamInterfaces_loop fuel (info_stream_ifs n) []).

Definition GetStream (format width height fps : Z) : Prog (option Stream * option error) :=
  rlocked (
    h ← perform ELoadHandle;
    if is_nil h then Ret (None, Some ErrDeviceClosed)
    else
      r ← perform (ECall (C_uvc_get_stream_ctrl_format_size h format
                            (cint width) (cint height) (cint fps)));
      match newError (status r) with
      | Some err => Ret (None, Some err)
      | None => Ret (Some {| devh := h; ctrl := ctrl_out r |}, None)
      end).

Definition Ref : Prog unit :=
  rlocked (
    h ← perform ELoadHandle;
    if is_nil h then Ret tt
    else
      d ← perform ELoadDev;
      perform (ECall (C_uvc_ref_device d));;
      Ret tt).

Definition Unref : Prog unit :=
  rlocked (
    h ← perform ELoadHandle;
    if is_nil h then Ret tt
    else
      d ← perform ELoadDev;
      perform (ECall (C_uvc_unref_device d));;
      Ret tt).

Definition Close : Prog (option error) :=
  locked (
    h ← perform ELoadHandle;
    perform (ECall (C_uvc_close h));;
    perform (EStoreHandle nil);;
    Ret None).

Definition IsIdle : Prog bool :=
  rlocked (
    h ← perform ELoadHandle;
    if is_nil h then Ret true
    else
      n ← perform (EDerefHandle h);
      Ret (is_nil (streams n))).

Definition IsClosed : Prog bool :=
  rlocked (
    h ← perform ELoadHandle;
    Ret (is_nil h)).

Definition mkFormatDescriptor (desc : ptr) (n : uvc_format_desc) : FormatDescriptor :=
  {| fd_desc := desc;
     fd_Subtype := fmt_bDescriptorSubtype n;
     fd_FormatIndex := uint8 (bFormatIndex n);
     fd_NumFrameDescriptors := uint8 (bNumFrameDescriptors n);
     fd_BitsPerPixel := uint8 (anon1 n);
     fd_Flags := uint8 (anon1 n);
     fd_DefaultFrameIndex := uint8 (bDefaultFrameIndex n);
     fd_AspectRatioX := uint8 (bAspectRatioX n);
     fd_AspectRatioY := uint8 (bAspectRatioY n);
     fd_InterlaceFlags := uint8 (bmInterlaceFlags n);
     fd_CopyProtect := uint8 (bCopyProtect n);
     fd_VariableSize := uint8 (bVariableSize n) |}.

Fixpoint FormatDescriptors_loop (fuel : nat) (desc : ptr) (descs : list FormatDescriptor)
  : Prog (list FormatDescriptor) :=
  if is_nil desc then Ret descs
  else
    match fuel with
    | O => Spin
    | S fuel' =>
        n ← perform (EDerefFormat desc);
        FormatDescriptors_loop fuel' (fmt_next n) (descs ++ [mkFormatDescriptor desc n])
    end.

(** A method of [StreamInterface]: it has no device and takes no lock. *)
Definition FormatDescriptors (fuel : nat) (i : StreamInterface) : Prog (list FormatDescriptor) :=
  if is_nil (si_itf i) then Ret []
  else
    n ← perform (EDerefStreamIf (si_itf i));
    FormatDescriptors_loop fuel (format_descs n) [].

(** The composite literal leaves [Intervals] out: it is the nil slice. *)
Definition mkFrameDescriptor (desc : ptr) (n : uvc_frame_desc) : FrameDescriptor :=
  {| fr_desc := desc;
     fr_Subtype := frm_bDescriptorSubtype n;
     fr_FrameIndex := uint8 (bFrameIndex n);
     fr_Capabilities := uint8 (bmCapabilities n);
     fr_Width := uint16 (wWidth n);
     fr_Height := uint16 (wHeight n);
     fr_MinBitRate := uint32 (dwMinBitRate n);
     fr_MaxBitRate := uint32 (dwMaxBitRate n);
     fr_MaxVideoFrameBufferSize := uint32 (dwMaxVideoFrameBufferSize n);
     fr_DefaultFrameInterval := uint32 (dwDefaultFrameInterval n);
     fr_MinFrameInterval := uint32 (dwMinFrameInterval n);
     fr_MaxFrameInterval := uint32 (dwMaxFrameInterval n);
     fr_FrameIntervalStep := uint32 (dwFrameIntervalStep n);
     fr_FrameIntervalType := uint8 (bFrameIntervalType n);
     fr_BytesPerLine := uint32 (dwBytesPerLine n);
     fr_Intervals := [] |}.

Fixpoint FrameDescriptors_loop (fuel : nat) (desc : ptr) (descs : list FrameDescriptor)
  : Prog (list FrameDescriptor) :=
  if is_nil desc then Ret descs
  else
    match fuel with
    | O => Spin
    | S fuel' =>
        n ← perform (EDerefFrame desc);
        FrameDescriptors_loop fuel' (frm_next n) (descs ++ [mkFrameDescriptor desc n])
    end.

(** A method of [FormatDescriptor]; no lock either. *)
Definition FrameDescriptors (fuel : nat) (d : FormatDescriptor) : Prog (list FrameDescriptor) :=
  if is_nil (fd_desc d) then Ret []
  else
    n ← perform (EDerefFormat (fd_desc d));
    FrameDescriptors_loop fuel (frame_descs n) [].

End Methods.

(** ** Semantics *)

Inductive EffRes (X : Type) : Type :=
| EOk (x : X) (s : State)
| EFault
| EBlocked.

Arguments EOk {X} x s.
Arguments EFault {X}.
Arguments EBlocked {X}.

Definition read_mem {A} (heap : gmap addr A) (p : ptr) (s : State) : EffRes A :=
  match deref heap p with
  | Some n => EOk n s
  | None => EFault
  end.

(** [Lock] waits until nobody is inside, [RLock] until no writer is;
    unlocking a mutex that is not locked is a fatal error.  A native call
    enters the trace and may change native memory; [uvc_open] may also
    write the handle field, whose address it is given. *)
Definition do_eff (lib : NativeLib) {X} (e : Eff X) (s : State) : EffRes X :=
  match e in Eff X return EffRes X with
  | ELock =>
      if writer (mu s) then EBlocked
      else match readers (mu s) with
           | O => EOk tt (set_mu {| readers := 0; writer := true |} s)
           | S _ => EBlocked
           end
  | EUnlock =>
      if writer (mu s)
      then EOk tt (set_mu {| readers := readers (mu s); writer := false |} s)
      else EFault
  | ERLock =>
      if writer (mu s) then EBlocked
      else EOk tt (set_mu {| readers := S (readers (mu s)); writer := false |} s)
  | ERUnlock =>
      match readers (mu s) with
      | O => EFault
      | S n => EOk tt (set_mu {| readers := n; writer := writer (mu s) |} s)
      end
  | ELoadDev => EOk (dev (this s)) s
  | ELoadHandle => EOk (handle (this s)) s
  | EStoreHandle p => EOk tt (set_handle p s)
  | ECallOpen d =>
      let '(r, h, m) := native_open lib (mem s) d (handle (this s)) in
      EOk r (set_handle h (set_mem m (C_uvc_open d) s))
  | ECall c =>
      let '(r, m) := native_call lib c (mem s) in
      EOk r (set_mem m c s)
  | EDerefHandle p => read_mem (handles (mem s)) p s
  | EDerefStreamIf p => read_mem (stream_ifs (mem s)) p s
  | EDerefFormat p => read_mem (format_nodes (mem s)) p s
  | EDerefFrame p => read_mem (frame_nodes (mem s)) p s
  end.

(** The outcome of one call run alone. *)
Inductive Outcome (R : Type) : Type :=
| Done (r : R) (s : State)
| Fault
| Blocked
| Diverge.

Arguments Done {R} r s.
Arguments Fault {R}.
Arguments Blocked {R}.
Arguments Diverge {R}.

Fixpoint run (lib : NativeLib) {R} (p : Prog R) (s : State) : Outcome R :=
  match p with
  | Ret r => Done r s
  | Spin => Diverge
  | Vis e k =>
      match do_eff lib e s with
      | EOk x s' => run lib (k x) s'
      | EFault => Fault
      | EBlocked => Blocked
      end
  end.

(** ** Two goroutines on one device *)

(** What a goroutine has acquired of the device's mutex. *)
Inductive Held := HNone | HRead | HWrite.

Record Thread (R : Type) := {
  held : Held;
  code : Prog R
}.

Arguments held {R} _.
Arguments code {R} _.

Definition held_after {X} (e : Eff X) (h : Held) : Held :=
  match e with
  | ELock => HWrite
  | ERLock => HRead
  | EUnlock | ERUnlock => HNone
  | _ => h
  end.

Inductive ThreadStep (R : Type) : Type :=
| TNext (t : Thread R) (s : State)
| TFinished (r : R)
| TBlocked
| TFaulted.

Arguments TNext {R} t s.
Arguments TFinished {R} r.
Arguments TBlocked {R}.
Arguments TFaulted {R}.

(** One effect of one goroutine. *)
Definition thread_step (lib : NativeLib) {R} (t : Thread R) (s : State) : ThreadStep R :=
  match code t with
  | Ret r => TFinished r
  | Spin => TNext t s
  | Vis e k =>
      match do_eff lib e s with
      | EOk x s' => TNext {| held := held_after e (held t); code := k x |} s'
      | EFault => TFaulted
      | EBlocked => TBlocked
      end
  end.

Record Sys (RA RB : Type) := {
  shared : State;
  thA : Thread RA;
  thB : Thread RB
}.

Arguments shared {RA RB} _.
Arguments thA {RA RB} _.
Arguments thB {RA RB} _.

Definition start {RA RB} (pa : Prog RA) (pb : Prog RB) (s : State) : Sys RA RB :=
  {| shared := s;
     thA := {| held := HNone; code := pa |};
     thB := {| held := HNone; code := pb |} |}.

(** Any interleaving: either goroutine takes the next step. *)
Inductive sys_step (lib : NativeLib) {RA RB} : Sys RA RB → Sys RA RB → Prop :=
| step_A c t s' :
    thread_step lib (thA c) (shared c) = TNext t s' →
    sys_step lib c {| shared := s'; thA := t; thB := thB c |}
| step_B c t s' :
    thread_step lib (thB c) (shared c) = TNext t s' →
    sys_step lib c {| shared := s'; thA := thA c; thB := t |}.

Definition reachable (lib : NativeLib) {RA RB} : Sys RA RB → Sys RA RB → Prop :=
  rtc (sys_step lib).

(** A schedule names the goroutine of each step: [true] is the first. *)
Fixpoint exec (lib : NativeLib) {RA RB} (sched : list bool) (c : Sys RA RB)
  : option (Sys RA RB) :=
  match sched with
  | [] => Some c
  | true :: sched' =>
      match thread_step lib (thA c) (shared c) with
      | TNext t s' => exec lib sched' {| shared := s'; thA := t; thB := thB c |}
      | _ => None
      end
  | false :: sched' =>
      match thread_step lib (thB c) (shared c) with
      | TNext t s' => exec lib sched' {| shared := s'; thA := thA c; thB := t |}
      | _ => None
      end
  end.

(** The next effect reads the handle field or native memory. *)
Definition reads_native {R} (p : Prog R) : bool :=
  match p with
  | Vis e _ =>
      match e with
      | ELoadHandle | EDerefHandle _ | EDerefStreamIf _
      | EDerefFormat _ | EDerefFrame _ => true
      | _ => false
      end
  | _ => false
  end.

(** The lock discipline of the methods of [Device]: the mutex is taken from
    outside only and given back before returning, the fields and native
    memory are touched under it, and the handle changes under the write
    lock only. *)
Definition allowed {X} (e : Eff X) (h : Held) : Prop :=
  match e with
  | ELock | ERLock => h = HNone
  | EUnlock => h = HWrite
  | ERUnlock => h = HRead
  | EStoreHandle _ | ECallOpen _ | ECall (C_uvc_close _) => h = HWrite
  | _ => h ≠ HNone
  end.

(** [guarded h p]: [p], run by a goroutine that holds [h], follows the
    discipline and returns with nothing held; its loops are inside the
    lock. *)
Fixpoint guarded {R} (h : Held) (p : Prog R) : Prop :=
  match p with
  | Ret _ => h = HNone
  | Spin => h ≠ HNone
  | Vis e k => allowed e h ∧ ∀ x, guarded (held_after e h) (k x)
  end.

(** [e] takes the mutex in mode [m]. *)
Definition is_acquire (m : Held) {X} (e : Eff X) : Prop :=
  match e with
  | ELock => m = HWrite
  | ERLock => m = HRead
  | _ => False
  end.

(** A program that never takes the mutex. *)
Fixpoint no_acquire {R} (p : Prog R) : Prop :=
  match p with
  | Vis e k =>
      match e with
      | ELock | ERLock => False
      | _ => True
      end
      ∧ ∀ x, no_acquire (k x)
  | _ => True
  end.

(** A method that takes the mutex first, in mode [m], and never again. *)
Definition single_section (m : Held) {R} (p : Prog R) : Prop :=
  match p with
  | Vis e k => is_acquire m e ∧ ∀ x, no_acquire (k x)
  | _ => False
  end.

(** Where a goroutine running such a method [p0] is: at its start, inside
    its one critical section, or returned. *)
Definition one_section (m : Held) {R} (p0 : Prog R) (t : Thread R) : Prop :=
  (held t = HNone ∧ code t = p0)
  ∨ (held t = m ∧ no_acquire (code t))
  ∨ (held t = HNone ∧ ∃ r, code t = Ret r).

(** The mutex as two goroutines holding [ha] and [hb] leave it. *)
Definition mutex_of (ha hb : Held) : option RWMutex :=
  match ha, hb with
  | HNone, HNone => Some unlocked
  | HRead, HNone | HNone, HRead => Some {| readers := 1; writer := false |}
  | HRead, HRead => Some {| readers := 2; writer := false |}
  | HWrite, HNone | HNone, HWrite => Some {| readers := 0; writer := true |}
  | _, _ => None
  end.

(** What holds of two goroutines that follow the discipline, at any point
    of any interleaving. *)
Definition sys_inv {RA RB} (c : Sys RA RB) : Prop :=
  guarded (held (thA c)) (code (thA c))
  ∧ guarded (held (thB c)) (code (thB c))
  ∧ mutex_of (held (thA c)) (held (thB c)) = Some (mu (shared c)).

(** The claim on a top-level query, run next to [Close]: from its first
    effect to its return the query holds the read lock. *)
Definition lock_spans (lib : NativeLib) {R} (query : Prog R) : Prop :=
  ∀ s0 c,
    mu s0 = unlocked →
    reachable lib (start query Close s0) c →
    (held (thA c) = HNone ∧ code (thA c) = query)
    ∨ held (thA c) = HRead
    ∨ ∃ r, code (thA c) = Ret r.

(** A caller that materialises the second level of the tree with what the
    source offers: [StreamInterfaces], then [FormatDescriptors] of each
    interface. *)
Fixpoint formats_of (fuel : nat) (ifs : list StreamInterface)
  : Prog (list (StreamInterface * list FormatDescriptor)) :=
  match ifs with
  | [] => Ret []
  | i :: ifs' =>
      fs ← FormatDescriptors fuel i;
      rest ← formats_of fuel ifs';
      Ret ((i, fs) :: rest)
  end.

Definition catalog (fuel : nat) : Prog (list (StreamInterface * list FormatDescriptor)) :=
  ifs ← StreamInterfaces fuel;
  formats_of fuel ifs.

(** ** Native lists *)

(** [linked heap next p l]: following [next] from [p] visits exactly the
    nodes of [l], in order, and ends at nil. *)
Inductive linked {N} (heap : gmap addr N) (next : N → ptr) : ptr → list (addr * N) → Prop :=
| linked_nil : linked heap next None []
| linked_cons a n l :
    heap !! a = Some n →
    linked heap next (next n) l →
    linked heap next (Some a) ((a, n) :: l).

(** ** What the code relies on from [uvc_open] *)

(** On success the handle is written through the out parameter; on failure
    the cell is left as it was. *)
Definition uvc_open_contract (newError : Z → option error) (lib : NativeLib) : Prop :=
  ∀ m d h r h' m',
    native_open lib m d h = (r, h', m') →
    (newError r = None → h' ≠ nil) ∧ (newError r ≠ None → h' = h).

(** ** A camera to run the code on *)

Module Camera.

(** A device with two streaming interfaces; the first has an uncompressed
    and an MJPEG format, the uncompressed one two frame sizes with a
    discrete list of frame intervals. *)
Definition ctrl_if : uvc_control_interface :=
  {| bcdUVC := 256; ci_bInterfaceNumber := 0; ci_bEndpointAddress := 131;
     dwClockFrequency := 48000000 |}.

Definition the_handle : uvc_device_handle :=
  {| info_ctrl_if := ctrl_if; info_stream_ifs := Some 20%positive; streams := nil |}.

Definition itf1 : uvc_streaming_interface :=
  {| si_bInterfaceNumber := 1; si_bEndpointAddress := 129; bTerminalLink := 3;
     format_descs := Some 30%positive; si_next := Some 21%positive |}.

Definition itf2 : uvc_streaming_interface :=
  {| si_bInterfaceNumber := 2; si_bEndpointAddress := 130; bTerminalLink := 4;
     format_descs := nil; si_next := nil |}.

Definition yuy2 : uvc_format_desc :=
  {| fmt_bDescriptorSubtype := 4; bFormatIndex := 1; bNumFrameDescriptors := 2;
     anon1 := 16; bDefaultFrameIndex := 1; bAspectRatioX := 0; bAspectRatioY := 0;
     bmInterlaceFlags := 0; bCopyProtect := 0; bVariableSize := 0;
     frame_descs := Some 40%positive; fmt_next := Some 31%positive |}.

Definition mjpeg : uvc_format_desc :=
  {| fmt_bDescriptorSubtype := 6; bFormatIndex := 2; bNumFrameDescriptors := 0;
     anon1 := 1; bDefaultFrameIndex := 1; bAspectRatioX := 0; bAspectRatioY := 0;
     bmInterlaceFlags := 0; bCopyProtect := 0; bVariableSize := 0;
     frame_descs := nil; fmt_next := nil |}.

Definition vga : uvc_frame_desc :=
  {| frm_bDescriptorSubtype := 5; bFrameIndex := 1; bmCapabilities := 0;
     wWidth := 640; wHeight := 480;
     dwMinBitRate := 24576000; dwMaxBitRate := 147456000;
     dwMaxVideoFrameBufferSize := 614400;
     dwDefaultFrameInterval := 333333;
     dwMinFrameInterval := 0; dwMaxFrameInterval := 0; dwFrameIntervalStep := 0;
     bFrameIntervalType := 2; dwBytesPerLine := 1280;
     intervals := [333333; 666666];
     frm_next := Some 41%positive |}.

Definition qvga : uvc_frame_desc :=
  {| frm_bDescriptorSubtype := 5; bFrameIndex := 2; bmCapabilities := 0;
     wWidth := 320; wHeight := 240;
     dwMinBitRate := 6144000; dwMaxBitRate := 36864000;
     dwMaxVideoFrameBufferSize := 153600;
     dwDefaultFrameInterval := 333333;
     dwMinFrameInterval := 333333; dwMaxFrameInterval := 2000000;
     dwFrameIntervalStep := 333333;
     bFrameIntervalType := 0; dwBytesPerLine := 640;
     intervals := [];
     frm_next := nil |}.

(** Memory before [uvc_open]: the device object alone, referenced once. *)
Definition mem_closed : Mem :=
  {| devices := {[ 1%positive := 1 ]};
     handles := ∅; stream_ifs := ∅; format_nodes := ∅; frame_nodes := ∅ |}.

(** [uvc_open] allocates the handle and its descriptor tree. *)
Definition allocate (m : Mem) : Mem :=
  {| devices := devices m;
     handles := <[ 10%positive := the_handle ]> (handles m);
     stream_ifs := <[ 20%positive := itf1 ]> (<[ 21%positive := itf2 ]> (stream_ifs m));
     format_nodes := <[ 30%positive := yuy2 ]> (<[ 31%positive := mjpeg ]> (format_nodes m));
     frame_nodes := <[ 40%positive := vga ]> (<[ 41%positive := qvga ]> (frame_nodes m)) |}.

(** [uvc_close] frees them. *)
Definition release (m : Mem) : Mem :=
  {| devices := devices m;
     handles := ∅; stream_ifs := ∅; format_nodes := ∅; frame_nodes := ∅ |}.

Definition count (f : Z → Z) (d : ptr) (m : Mem) : Mem :=
  match d with
  | None => m
  | Some a =>
      {| devices := alter f a (devices m);
         handles := handles m; stream_ifs := stream_ifs m;
         format_nodes := format_nodes m; frame_nodes := frame_nodes m |}
  end.

Definition ok : NativeResp := {| status := 0; ctrl_out := [] |}.
Definition failed (r : Z) : NativeResp := {| status := r; ctrl_out := [] |}.

(** Status codes follow libuvc: 0 success, -4 no device, -51 invalid
    mode. *)
Definition lib : NativeLib :=
  {| native_open := fun m d h =>
       match deref (devices m) d with
       | Some _ => (0, Some 10%positive, allocate m)
       | None => (-4, h, m)
       end;
     native_call := fun c m =>
       match c with
       | C_uvc_close _ => (ok, release m)
       | C_uvc_ref_device d => (ok, count Z.succ d m)
       | C_uvc_unref_device d => (ok, count Z.pred d m)
       | C_uvc_get_stream_ctrl_format_size h format width height fps =>
           if (width =? 640) && (height =? 480)
           then ({| status := 0; ctrl_out := [format; width; height; fps] |}, m)
           else (failed (-51), m)
       | C_uvc_open _ => (failed (-4), m)
       | _ => (ok, m)
       end |}.

Definition newError (r : Z) : option error :=
  if r =? 0 then None else Some (Error_ r).

Definition closed_state : State :=
  {| this := {| dev := Some 1%positive; handle := nil |};
     mu := unlocked; mem := mem_closed; trace := [] |}.

Definition open_state : State :=
  {| this := {| dev := Some 1%positive; handle := Some 10%positive |};
     mu := unlocked; mem := allocate mem_closed;
     trace := [C_uvc_open (Some 1%positive)] |}.

(** A device object that has gone away. *)
Definition unplugged_state : State :=
  {| this := {| dev := Some 2%positive; handle := nil |};
     mu := unlocked; mem := mem_closed; trace := [] |}.

(** [catalog] runs [StreamInterfaces] (six effects), [Close] runs whole
    (five effects), and [catalog] is left about to walk the formats. *)
Definition late_close : list bool :=
  [true; true; true; true; true; true; false; false; false; false; false].

End Camera.

(** ** The device reference: [Descriptor] *)

(** [uvc_device_descriptor_t].  A [char*] is [None] when it is nil. *)
Record uvc_device_descriptor := {
  idVendor : Z;
  idProduct : Z;
  dd_bcdUVC : Z;
  serialNumber : option string;
  manufacturer : option string;
  product : option string
}.

Record DeviceDescriptor := {
  dd_VendorID : Z;
  dd_ProductID : Z;
  dd_BcdUVC : Z;
  dd_SerialNumber : string;
  dd_Manufacturer : string;
  dd_Product : string
}.

(** [C.GoString]: the copy of a C string, empty for the nil pointer. *)
Definition GoString (p : option string) : string :=
  match p with
  | Some s => s
  | None => EmptyString
  end.

Inductive DescriptorCall :=
| C_uvc_get_device_descriptor (d : ptr)
| C_uvc_free_device_descriptor (desc : ptr).

(** The two native functions [Descriptor] calls, over the descriptors that
    are allocated: [native_get m d] is
    [uvc_get_device_descriptor(d, &desc)] and answers a status, the pointer
    written to [desc] and the new memory. *)
Record DescriptorLib := {
  native_get : gmap addr uvc_device_descriptor → ptr
               → Z * ptr * gmap addr uvc_device_descriptor;
  native_free : gmap addr uvc_device_descriptor → ptr
                → gmap addr uvc_device_descriptor
}.

Record DescriptorWorld := {
  descriptors : gmap addr uvc_device_descriptor;
  calls : list DescriptorCall
}.

(** [Descriptor] takes no lock and reads [dev.dev] only.  [None] is the
    panic of reading through a nil or dangling [desc].  The deferred free
    runs after the Go value has been built. *)
Definition Descriptor (newError : Z → option error) (lib : DescriptorLib)
    (this : Device) (w : DescriptorWorld)
  : option ((option DeviceDescriptor * option error) * DescriptorWorld) :=
  if is_nil (dev this) then Some ((None, Some ErrDeviceNotFound), w)
  else
    let '(r, desc, m) := native_get lib (descriptors w) (dev this) in
    let got := calls w ++ [C_uvc_get_device_descriptor (dev this)] in
    match newError r with
    | Some err => Some ((None, Some err), {| descriptors := m; calls := got |})
    | None =>
        match deref m desc with
        | None => None
        | Some n =>
            let info :=
              {| dd_VendorID := uint16 (idVendor n);
                 dd_ProductID := uint16 (idProduct n);
                 dd_BcdUVC := uint16 (dd_bcdUVC n);
                 dd_SerialNumber := GoString (serialNumber n);
                 dd_Manufacturer := GoString (manufacturer n);
                 dd_Product := GoString (product n) |} in
            Some ((Some info, None),
                  {| descriptors := native_free lib m desc;
                     calls := got ++ [C_uvc_free_device_descriptor desc] |})
        end
    end.

(** A native library that keeps its books: a successful get allocates the
    descriptor it returns at an address that was free, a failed one
    allocates nothing, and free releases exactly the descriptor it is
    given. *)
Definition allocates_and_frees (newError : Z → option error) (lib : DescriptorLib)
  : Prop :=
  (∀ m d r desc m',
     native_get lib m d = (r, desc, m') →
     match newError r with
     | Some _ => m' = m
     | None => ∃ a n, desc = Some a ∧ m !! a = None ∧ m' = <[a := n]> m
     end)
  ∧ (∀ m a, native_free lib m (Some a) = delete a m).

(** ** The diagnostic dumps *)

Definition newline : string := String "010"%char EmptyString.

(** One [fmt.Fprintf(buf, "Name: %v\n", value)]. *)
Definition dump_line (field : string * string) : string :=
  (field.1 +:+ ": " +:+ field.2 +:+ newline)%string.

(** The buffer after one such call per field. *)
Fixpoint dump (fields : list (string * string)) : string :=
  match fields with
  | [] => EmptyString
  | f :: fields' => (dump_line f +:+ dump fields')%string
  end.

(** [%d] *)
Definition fmt_d (z : Z) : string := pretty z.

Definition ControlInterface_String (i : ControlInterface) : string :=
  dump [("bcdUVC", fmt_d (ci_BcdUVC i));
        ("InterfaceNumber", fmt_d (ci_Number i));
        ("EndpointAddress", fmt_d (ci_EndpointAddress i));
        ("ClockFrequency", fmt_d (ci_ClockFrequency i))]%string.

Definition StreamInterface_String (i : StreamInterface) : string :=
  dump [("InterfaceNumber", fmt_d (si_Number i));
        ("EndpointAddress", fmt_d (si_EndpointAddress i));
        ("TerminalLink", fmt_d (si_TerminalLink i))]%string.

Definition FormatDescriptor_String (d : FormatDescriptor) : string :=
  dump [("Subtype", fmt_d (fd_Subtype d));
        ("FormatIndex", fmt_d (fd_FormatIndex d));
        ("NumFrameDescriptors", fmt_d (fd_NumFrameDescriptors d));
        ("BitsPerPixel", fmt_d (fd_BitsPerPixel d));
        ("Flags", fmt_d (fd_Flags d));
        ("DefaultFrameIndex", fmt_d (fd_DefaultFrameIndex d));
        ("AspectRatioX", fmt_d (fd_AspectRatioX d));
        ("AspectRatioY", fmt_d (fd_AspectRatioY d));
        ("InterlaceFlags", fmt_d (fd_InterlaceFlags d));
        ("CopyProtect", fmt_d (fd_CopyProtect d));
        ("VariableSize", fmt_d (fd_VariableSize d))]%string.

Definition FrameDescriptor_String (d : FrameDescriptor) : string :=
  dump [("Subtype", fmt_d (fr_Subtype d));
        ("FrameIndex", fmt_d (fr_FrameIndex d));
        ("Capabilities", fmt_d (fr_Capabilities d));
        ("Width", fmt_d (fr_Width d));
        ("Height", fmt_d (fr_Height d));
        ("MinBitRate", fmt_d (fr_MinBitRate d));
        ("MaxBitRate", fmt_d (fr_MaxBitRate d));
        ("MaxVideoFrameBufferSize", fmt_d (fr_MaxVideoFrameBufferSize d));
        ("DefaultFrameInterval", fmt_d (fr_DefaultFrameInterval d));
        ("MinFrameInterval", fmt_d (fr_MinFrameInterval d));
        ("MaxFrameInterval", fmt_d (fr_MaxFrameInterval d));
        ("FrameIntervalStep", fmt_d (fr_FrameIntervalStep d));
        ("FrameIntervalType", fmt_d (fr_FrameIntervalType d));
        ("BytesPerLine", fmt_d (fr_BytesPerLine d))]%string.

(** [%04x]: lower-case hexadecimal, padded with zeros to four digits. *)
Definition hex_char (d : N) : ascii :=
  match d with
  | 0 => "0" | 1 => "1" | 2 => "2" | 3 => "3" | 4 => "4" | 5 => "5"
  | 6 => "6" | 7 => "7" | 8 => "8" | 9 => "9" | 10 => "a" | 11 => "b"
  | 12 => "c" | 13 => "d" | 14 => "e" | _ => "f"
  end%char%N.

(** A number of [n] bits has at most [n] hexadecimal digits. *)
Fixpoint hex_go (bits : nat) (x : N) (acc : string) : string :=
  match bits with
  | O => acc
  | S bits' =>
      if (x =? 0)%N then acc
      else hex_go bits' (x / 16)%N (String (hex_char (x mod 16)%N) acc)
  end.

Definition hex (x : N) : string :=
  if (x =? 0)%N then "0"%string else hex_go (N.size_nat x) x EmptyString.

Fixpoint zeros (n : nat) : string :=
  match n with
  | O => EmptyString
  | S n' => String "0"%char (zeros n')
  end.

Definition fmt_04x (z : Z) : string :=
  let digits := hex (Z.to_N z) in
  (zeros (4 - String.length digits) +:+ digits)%string.

Definition DeviceDescriptor_String (d : DeviceDescriptor) : string :=
  dump [("VendorID", fmt_04x (dd_VendorID d));
        ("ProductID", fmt_04x (dd_ProductID d));
        ("SerialNumber", dd_SerialNumber d);
        ("BcdUVC", fmt_d (dd_BcdUVC d));
        ("Manufacturer", dd_Manufacturer d);
        ("Product", dd_Product d)]%string.

(** The fields a dump shows, in its order. *)
Definition ControlInterface_fields (i : ControlInterface) : list Z :=
  [ci_BcdUVC i; ci_Number i; ci_EndpointAddress i; ci_ClockFrequency i].

Definition StreamInterface_fields (i : StreamInterface) : list Z :=
  [si_Number i; si_EndpointAddress i; si_TerminalLink i].

Definition FormatDescriptor_fields (d : FormatDescriptor) : list Z :=
  [fd_Subtype d; fd_FormatIndex d; fd_NumFrameDescriptors d; fd_BitsPerPixel d;
   fd_Flags d; fd_DefaultFrameIndex d; fd_AspectRatioX d; fd_AspectRatioY d;
   fd_InterlaceFlags d; fd_CopyProtect d; fd_VariableSize d].

Definition FrameDescriptor_fields (d : FrameDescriptor) : list Z :=
  [fr_Subtype d; fr_FrameIndex d; fr_Capabilities d; fr_Width d; fr_Height d;
   fr_MinBitRate d; fr_MaxBitRate d; fr_MaxVideoFrameBufferSize d;
   fr_DefaultFrameInterval d; fr_MinFrameInterval d; fr_MaxFrameInterval d;
   fr_FrameIntervalStep d; fr_FrameIntervalType d; fr_BytesPerLine d].

(** The number of line ends in a text. *)
Fixpoint count_lines (s : string) : nat :=
  match s with
  | EmptyString => O
  | String c s' =>
      if Ascii.eqb c "010"%char then S (count_lines s') else count_lines s'
  end.

(** A library for the camera: device 1 has a descriptor without a serial
    number, which is allocated at the first free address from 50 on. *)
Module CameraInfo.

Definition the_descriptor : uvc_device_descriptor :=
  {| idVendor := 1133; idProduct := 2085; dd_bcdUVC := 256;
     serialNumber := None;
     manufacturer := Some "Acme"%string;
     product := Some "Cam"%string |}.

Definition free_address (m : gmap addr uvc_device_descriptor) : addr :=
  if m !! 50%positive is Some _ then fresh (dom m) else 50%positive.

Definition lib : DescriptorLib :=
  {| native_get := fun m d =>
       match d with
       | Some 1%positive =>
           (0, Some (free_address m), <[free_address m := the_descriptor]> m)
       | _ => (-4, nil, m)
       end;
     native_free := fun m desc =>
       match desc with
       | Some a => delete a m
       | None => m
       end |}.

Definition world : DescriptorWorld := {| descriptors := ∅; calls := [] |}.

End CameraInfo.

(** A camera whose only streaming interface points back at itself. *)
Module Looped.

Definition itf : uvc_streaming_interface :=
  {| si_bInterfaceNumber := 1; si_bEndpointAddress := 129; bTerminalLink := 3;
     format_descs := nil; si_next := Some 20%positive |}.

Definition state : State :=
  {| this := {| dev := Some 1%positive; handle := Some 10%positive |};
     mu := unlocked;
     mem := {| devices := {[ 1%positive := 1 ]};
               handles := {[ 10%positive := Camera.the_handle ]};
               stream_ifs := {[ 20%positive := itf ]};
               format_nodes := ∅; frame_nodes := ∅ |};
     trace := [] |}.

End Looped.

(** ** What a caller may rely on from every method *)

(** Called with the mutex free, [p] never waits for it, and when it returns
    the mutex is free again. *)
Definition returns_unlocked {R} (p : Prog R) : Prop :=
  ∀ lib s,
    mu s = unlocked →
    run lib p s ≠ Blocked
    ∧ ∀ r s', run lib p s = Done r s' → mu s' = unlocked.

(** [p] returns with both fields of the device as they were. *)
Definition keeps_device {R} (p : Prog R) : Prop :=
  ∀ lib s r s',
    mu s = unlocked →
    run lib p s = Done r s' →
    this s' = this s.

(** ** The methods that take the mutex *)

(** [DeviceMethod newError m p]: [p] is a call of one of the methods of
    [Device] that take the mutex, and [m] is the mode it takes it in. *)
Inductive DeviceMethod (newError : Z → option error)
  : Held → ∀ R : Type, Prog R → Prop :=
| m_Open : DeviceMethod newError HWrite _ (Open newError)
| m_Close : DeviceMethod newError HWrite _ Close
| m_SetAEMode mode : DeviceMethod newError HRead _ (SetAEMode newError mode)
| m_SetAEPriority priority :
    DeviceMethod newError HRead _ (SetAEPriority newError priority)
| m_SetExposureRelative exposure :
    DeviceMethod newError HRead _ (SetExposureRelative newError exposure)
| m_SetBrightness brightness :
    DeviceMethod newError HRead _ (SetBrightness newError brightness)
| m_ControlInterface : DeviceMethod newError HRead _ ControlInterface_
| m_StreamInterfaces fuel : DeviceMethod newError HRead _ (StreamInterfaces fuel)
| m_GetStream format width height fps :
    DeviceMethod newError HRead _ (GetStream newError format width height fps)
| m_Ref : DeviceMethod newError HRead _ Ref
| m_Unref : DeviceMethod newError HRead _ Unref
| m_IsIdle : DeviceMethod newError HRead _ IsIdle
| m_IsClosed : DeviceMethod newError HRead _ IsClosed.

Arguments DeviceMethod newError m {R} p.

(** ** [StreamInterfaces] next to [Close]: what stays true *)

(** [r0] is what [StreamInterfaces] returns when it runs alone from [s0].
    In any interleaving with [Close] from [s0]: nothing has happened while
    both calls are at their start; once [Close] is past its start it ends
    with the handle nil; once [StreamInterfaces] is past its start it ends,
    from where it is, with [r0] or with nothing. *)
Definition snapshot_inv (lib : NativeLib) (fuel : nat) (s0 : State)
    (r0 : list StreamInterface)
    (c : Sys (list StreamInterface) (option error)) : Prop :=
  sys_inv c
  ∧ one_section HRead (StreamInterfaces fuel) (thA c)
  ∧ one_section HWrite Close (thB c)
  ∧ (code (thA c) = StreamInterfaces fuel → code (thB c) = Close → shared c = s0)
  ∧ (held (thB c) = HWrite ∨ (∃ r, code (thB c) = Ret r) →
     ∀ r s', run lib (code (thB c)) (shared c) = Done r s' → handle (this s') = nil)
  ∧ (held (thA c) = HRead ∨ (∃ r, code (thA c) = Ret r) →
     ∃ r s', run lib (code (thA c)) (shared c) = Done r s' ∧ (r = r0 ∨ r = [])).

(** * Properties *)

(** ** One caller at a time *)

Ltac open_state s :=
  let d := fresh "d" in
  let h := fresh "h" in
  let rd := fresh "rd" in
  let wr := fresh "wr" in
  let m := fresh "m" in
  let tr := fresh "tr" in
  destruct s as [[d h] [rd wr] m tr]; unfold unlocked, nil in *; simpl in *.

Ltac run_method :=
  unfold locked, rlocked, perform, mbind, Prog_bind; simpl.

Ltac closed_case s :=
  let Hc := fresh "Hc" in
  let Hm := fresh "Hm" in
  intros Hc Hm; open_state s; inversion Hm; subst; reflexivity.

Section Sequential.

Variable newError : Z → option error.
Variable lib : NativeLib.

Lemma SetAEMode_closed s mode :
  handle (this s) = nil → mu s = unlocked →
  run lib (SetAEMode newError mode) s = Done (Some ErrDeviceClosed) s.
Proof. closed_case s. Qed.

Lemma SetAEPriority_closed s priority :
  handle (this s) = nil → mu s = unlocked →
  run lib (SetAEPriority newError priority) s = Done (Some ErrDeviceClosed) s.
Proof. closed_case s. Qed.

Lemma SetExposureRelative_closed s exposure :
  handle (this s) = nil → mu s = unlocked →
  run lib (SetExposureRelative newError exposure) s = Done (Some ErrDeviceClosed) s.
Proof. closed_case s. Qed.

Lemma SetBrightness_closed s brightness :
  handle (this s) = nil → mu s = unlocked →
  run lib (SetBrightness newError brightness) s = Done (Some ErrDeviceClosed) s.
Proof. closed_case s. Qed.

Lemma GetStream_closed s format width height fps :
  handle (this s) = nil → mu s = unlocked →
  run lib (GetStream newError format width height fps) s
  = Done (None, Some ErrDeviceClosed) s.
Proof. closed_case s. Qed.

Lemma ControlInterface_closed s :
  handle (this s) = nil → mu s = unlocked →
  run lib ControlInterface_ s = Done None s.
Proof. closed_case s. Qed.

Lemma StreamInterfaces_closed s fuel :
  handle (this s) = nil → mu s = unlocked →
  run lib (StreamInterfaces fuel) s = Done [] s.
Proof. closed_case s. Qed.

(** What [Close] leaves behind, whatever the handle was. *)
Lemma Close_run s :
  mu s = unlocked →
  run lib Close s
  = Done None
      (set_handle nil
         (set_mem (snd (native_call lib (C_uvc_close (handle (this s))) (mem s)))
            (C_uvc_close (handle (this s))) s)).
Proof.
  intros Hm. open_state s. inversion Hm; subst.
  unfold Close. run_method.
  destruct (native_call lib (C_uvc_close h) m) as [r m']. reflexivity.
Qed.

Lemma Open_opened s :
  handle (this s) ≠ nil → mu s = unlocked →
  run lib (Open newError) s = Done None s.
Proof.
  intros Hh Hm. open_state s. inversion Hm; subst.
  destruct h as [a|]; [reflexivity | congruence].
Qed.

Lemma Open_closed s r h' m' :
  handle (this s) = nil → mu s = unlocked →
  native_open lib (mem s) (dev (this s)) nil = (r, h', m') →
  run lib (Open newError) s
  = Done (newError r) (set_handle h' (set_mem m' (C_uvc_open (dev (this s))) s)).
Proof.
  intros Hh Hm Hn. open_state s. inversion Hm; subst.
  unfold Open. run_method. rewrite Hn. simpl.
  destruct (newError r); reflexivity.
Qed.

Lemma Ref_closed s :
  handle (this s) = nil → mu s = unlocked → run lib Ref s = Done tt s.
Proof. closed_case s. Qed.

Lemma Unref_closed s :
  handle (this s) = nil → mu s = unlocked → run lib Unref s = Done tt s.
Proof. closed_case s. Qed.

Lemma Ref_opened s :
  handle (this s) ≠ nil → mu s = unlocked →
  run lib Ref s
  = Done tt (set_mem (snd (native_call lib (C_uvc_ref_device (dev (this s))) (mem s)))
               (C_uvc_ref_device (dev (this s))) s).
Proof.
  intros Hh Hm. open_state s. inversion Hm; subst.
  destruct h as [a|]; [| congruence].
  unfold Ref. run_method.
  destruct (native_call lib (C_uvc_ref_device d) m) as [r m']. reflexivity.
Qed.

Lemma Unref_opened s :
  handle (this s) ≠ nil → mu s = unlocked →
  run lib Unref s
  = Done tt (set_mem (snd (native_call lib (C_uvc_unref_device (dev (this s))) (mem s)))
               (C_uvc_unref_device (dev (this s))) s).
Proof.
  intros Hh Hm. open_state s. inversion Hm; subst.
  destruct h as [a|]; [| congruence].
  unfold Unref. run_method.
  destruct (native_call lib (C_uvc_unref_device d) m) as [r m']. reflexivity.
Qed.

End Sequential.

(** ** The handle life cycle *)

(** C3.  On a closed device [SetAEMode], [SetAEPriority],
    [SetExposureRelative], [SetBrightness] and [GetStream] each return
    [ErrDeviceClosed] and leave the whole state as it was: no native call
    enters the trace, native memory is untouched, and [GetStream] hands out
    no stream. *)
Theorem closed_device_is_guarded
    (newError : Z → option error) (lib : NativeLib) (s : State)
    (mode priority exposure brightness format width height fps : Z) :
  handle (this s) = nil →
  mu s = unlocked →
  run lib (SetAEMode newError mode) s = Done (Some ErrDeviceClosed) s
  ∧ run lib (SetAEPriority newError priority) s = Done (Some ErrDeviceClosed) s
  ∧ run lib (SetExposureRelative newError exposure) s = Done (Some ErrDeviceClosed) s
  ∧ run lib (SetBrightness newError brightness) s = Done (Some ErrDeviceClosed) s
  ∧ run lib (GetStream newError format width height fps) s
    = Done (None, Some ErrDeviceClosed) s.
Proof.
  intros Hc Hm.
  rewrite SetAEMode_closed, SetAEPriority_closed, SetExposureRelative_closed,
    SetBrightness_closed, GetStream_closed by assumption.
  repeat split.
Qed.

Lemma closed_device_is_guarded_witness :
  let s := Camera.closed_state in
  run Camera.lib (SetAEMode Camera.newError 2) s = Done (Some ErrDeviceClosed) s
  ∧ run Camera.lib (SetAEPriority Camera.newError 1) s = Done (Some ErrDeviceClosed) s
  ∧ run Camera.lib (SetExposureRelative Camera.newError (-1)) s = Done (Some ErrDeviceClosed) s
  ∧ run Camera.lib (SetBrightness Camera.newError 100) s = Done (Some ErrDeviceClosed) s
  ∧ run Camera.lib (GetStream Camera.newError 7 640 480 30) s
    = Done (None, Some ErrDeviceClosed) s.
Proof.
  apply (closed_device_is_guarded Camera.newError Camera.lib Camera.closed_state
           2 1 (-1) 100 7 640 480 30); reflexivity.
Defined.

(** C8.  On a closed device [ControlInterface] returns nil and
    [StreamInterfaces] the empty slice; both return normally, with the state
    as it was.  Neither has an error result. *)
Theorem probes_degrade_when_closed (lib : NativeLib) (s : State) (fuel : nat) :
  handle (this s) = nil →
  mu s = unlocked →
  run lib ControlInterface_ s = Done None s
  ∧ run lib (StreamInterfaces fuel) s = Done [] s.
Proof.
  intros Hc Hm. split.
  - now apply ControlInterface_closed.
  - now apply StreamInterfaces_closed.
Qed.

Lemma probes_degrade_when_closed_witness :
  run Camera.lib ControlInterface_ Camera.closed_state = Done None Camera.closed_state
  ∧ run Camera.lib (StreamInterfaces 8) Camera.closed_state = Done [] Camera.closed_state.
Proof.
  apply (probes_degrade_when_closed Camera.lib Camera.closed_state 8); reflexivity.
Defined.

(** C5.  [Close] returns the nil error and leaves the handle nil, from an
    open and from a closed device and whatever [uvc_close] answers. *)
Theorem Close_always_succeeds (lib : NativeLib) (s : State) :
  mu s = unlocked →
  ∃ s', run lib Close s = Done None s'
        ∧ handle (this s') = nil
        ∧ mu s' = unlocked.
Proof.
  intros Hm. rewrite Close_run by assumption.
  eexists. split; [reflexivity |]. split; [reflexivity | exact Hm].
Qed.

Lemma Close_always_succeeds_witness :
  ∃ s', run Camera.lib Close Camera.open_state = Done None s'
        ∧ handle (this s') = nil
        ∧ mu s' = unlocked.
Proof.
  apply (Close_always_succeeds Camera.lib Camera.open_state); reflexivity.
Defined.

(** C2.  [Close] on a closed device does call the native close, on the nil
    handle: nothing guards the call. *)
Theorem Close_calls_uvc_close_on_nil (lib : NativeLib) (s : State) :
  handle (this s) = nil →
  mu s = unlocked →
  ∃ s', run lib Close s = Done None s'
        ∧ trace s' = trace s ++ [C_uvc_close nil].
Proof.
  intros Hc Hm. rewrite Close_run by assumption.
  eexists. split; [reflexivity |]. simpl. now rewrite Hc.
Qed.

Lemma Close_calls_uvc_close_on_nil_witness :
  ∃ s', run Camera.lib Close Camera.closed_state = Done None s'
        ∧ trace s' = trace Camera.closed_state ++ [C_uvc_close nil].
Proof.
  apply (Close_calls_uvc_close_on_nil Camera.lib Camera.closed_state); reflexivity.
Defined.

Lemma Camera_open_contract : uvc_open_contract Camera.newError Camera.lib.
Proof.
  intros m d h r h' m' H. simpl in H.
  destruct (deref (devices m) d); inversion H; subst; split; intros E.
  - discriminate.
  - now elim E.
  - discriminate.
  - reflexivity.
Qed.

(** C4.  [Open] on an open device returns nil with the state as it was (no
    native call).  On a closed device it calls [uvc_open] once; when that
    fails the handle stays nil and the translated error is returned; when it
    succeeds the handle is the one [uvc_open] wrote, and a second [Open]
    changes nothing.  [uvc_open] is taken to write the handle exactly when it
    succeeds. *)
Theorem Open_idempotent_and_atomic
    (newError : Z → option error) (lib : NativeLib) (s : State) :
  uvc_open_contract newError lib →
  mu s = unlocked →
  (handle (this s) ≠ nil → run lib (Open newError) s = Done None s)
  ∧ (handle (this s) = nil →
     let r := (native_open lib (mem s) (dev (this s)) nil).1.1 in
     ∃ s', run lib (Open newError) s = Done (newError r) s'
           ∧ trace s' = trace s ++ [C_uvc_open (dev (this s))]
           ∧ (newError r ≠ None → handle (this s') = nil)
           ∧ (newError r = None →
              handle (this s') ≠ nil
              ∧ run lib (Open newError) s' = Done None s')).
Proof.
  intros Hct Hm. split.
  - intros Hh. now apply Open_opened.
  - intros Hh.
    destruct (native_open lib (mem s) (dev (this s)) nil) as [[r h'] m'] eqn:Hn.
    simpl. destruct (Hct _ _ _ _ _ _ Hn) as [Hok Hfail].
    eexists. split; [apply Open_closed; eassumption |].
    split; [reflexivity |]. split.
    + intros E. simpl. now apply Hfail.
    + intros E. split; [simpl; now apply Hok |].
      apply Open_opened; [simpl; now apply Hok | exact Hm].
Qed.

Lemma Open_idempotent_and_atomic_witness :
  (∃ s', run Camera.lib (Open Camera.newError) Camera.closed_state = Done None s'
         ∧ handle (this s') ≠ nil)
  ∧ (∃ s', run Camera.lib (Open Camera.newError) Camera.unplugged_state
           = Done (Some (Error_ (-4))) s'
           ∧ handle (this s') = nil).
Proof.
  split.
  - destruct (Open_idempotent_and_atomic Camera.newError Camera.lib Camera.closed_state
                Camera_open_contract eq_refl) as [_ H].
    destruct (H eq_refl) as (s' & Hrun & _ & _ & Hok).
    exists s'. split; [exact Hrun | apply Hok; reflexivity].
  - destruct (Open_idempotent_and_atomic Camera.newError Camera.lib Camera.unplugged_state
                Camera_open_contract eq_refl) as [_ H].
    destruct (H eq_refl) as (s' & Hrun & _ & Hfail & _).
    exists s'. split; [exact Hrun | apply Hfail; discriminate].
Defined.

(** ** Reference counting *)

(** C10, as the code has it.  With the handle open, [Ref] and [Unref] make
    exactly one native call, on the device reference [dev.dev]; with the
    handle closed they return at the guard and call nothing.  Either way
    the handle field is what it was. *)
Theorem Ref_Unref_follow_the_handle (lib : NativeLib) (s : State) :
  mu s = unlocked →
  (handle (this s) ≠ nil →
   ∃ s1 s2,
     run lib Ref s = Done tt s1
     ∧ trace s1 = trace s ++ [C_uvc_ref_device (dev (this s))]
     ∧ this s1 = this s
     ∧ run lib Unref s = Done tt s2
     ∧ trace s2 = trace s ++ [C_uvc_unref_device (dev (this s))]
     ∧ this s2 = this s)
  ∧ (handle (this s) = nil →
     run lib Ref s = Done tt s ∧ run lib Unref s = Done tt s).
Proof.
  intros Hm. split.
  - intros Hh. do 2 eexists.
    rewrite Ref_opened, Unref_opened by assumption.
    repeat split.
  - intros Hh. split; [now apply Ref_closed | now apply Unref_closed].
Qed.

Lemma Ref_Unref_follow_the_handle_witness :
  (∃ s1 s2,
     run Camera.lib Ref Camera.open_state = Done tt s1
     ∧ trace s1 = trace Camera.open_state ++ [C_uvc_ref_device (Some 1%positive)]
     ∧ this s1 = this Camera.open_state
     ∧ run Camera.lib Unref Camera.open_state = Done tt s2
     ∧ trace s2 = trace Camera.open_state ++ [C_uvc_unref_device (Some 1%positive)]
     ∧ this s2 = this Camera.open_state)
  ∧ run Camera.lib Ref Camera.closed_state = Done tt Camera.closed_state
  ∧ run Camera.lib Unref Camera.closed_state = Done tt Camera.closed_state.
Proof.
  split.
  - apply (Ref_Unref_follow_the_handle Camera.lib Camera.open_state); [reflexivity |].
    discriminate.
  - apply (Ref_Unref_follow_the_handle Camera.lib Camera.closed_state); reflexivity.
Defined.

(** C10, as stated, fails on a closed device whose native reference exists:
    [Ref] makes no call, and the reference count stays 1. *)
Lemma Ref_on_closed_device_adjusts_nothing :
  let s := Camera.closed_state in
  dev (this s) ≠ nil
  ∧ devices (mem s) !! 1%positive = Some 1
  ∧ ¬ ∃ s', run Camera.lib Ref s = Done tt s'
            ∧ trace s' = trace s ++ [C_uvc_ref_device (dev (this s))].
Proof.
  cbv zeta. split; [discriminate |]. split; [reflexivity |].
  intros (s' & Hrun & Htr).
  rewrite Ref_closed in Hrun by reflexivity.
  inversion Hrun; subst s'. discriminate.
Qed.

(** The count does move on the open device. *)
Example Ref_on_open_device_counts :
  ∃ s', run Camera.lib Ref Camera.open_state = Done tt s'
        ∧ devices (mem s') !! 1%positive = Some 2.
Proof. eexists. split; vm_compute; reflexivity. Qed.

(** ** The descriptor catalog *)

Lemma Forall2_map_self {A B} (P : B → A → Prop) (f : A → B) (l : list A) :
  (∀ x, P (f x) x) → Forall2 P (map f l) l.
Proof. intros H. induction l; simpl; constructor; auto. Qed.

Section Catalog.

Variable lib : NativeLib.

Lemma run_bind {R S} (p : Prog R) (f : R → Prog S) s :
  run lib (bind p f) s
  = match run lib p s with
    | Done r s' => run lib (f r) s'
    | Fault => Fault
    | Blocked => Blocked
    | Diverge => Diverge
    end.
Proof.
  revert s. induction p as [r| |X e k IH]; intros s; simpl; try reflexivity.
  destruct (do_eff lib e s); auto.
Qed.

Lemma StreamInterfaces_loop_run s p l :
  linked (stream_ifs (mem s)) si_next p l →
  ∀ fuel acc, (length l ≤ fuel)%nat →
  run lib (StreamInterfaces_loop fuel p acc) s
  = Done (acc ++ map (fun an => mkStreamInterface (Some an.1) an.2) l) s.
Proof.
  induction 1 as [|a n l Ha Hl IH]; intros fuel acc Hf.
  - destruct fuel; simpl; now rewrite app_nil_r.
  - destruct fuel as [|fuel]; simpl in Hf; [lia |].
    simpl. unfold read_mem. simpl. rewrite Ha.
    rewrite IH by lia. now rewrite <- app_assoc.
Qed.

Lemma FormatDescriptors_loop_run s p l :
  linked (format_nodes (mem s)) fmt_next p l →
  ∀ fuel acc, (length l ≤ fuel)%nat →
  run lib (FormatDescriptors_loop fuel p acc) s
  = Done (acc ++ map (fun an => mkFormatDescriptor (Some an.1) an.2) l) s.
Proof.
  induction 1 as [|a n l Ha Hl IH]; intros fuel acc Hf.
  - destruct fuel; simpl; now rewrite app_nil_r.
  - destruct fuel as [|fuel]; simpl in Hf; [lia |].
    simpl. unfold read_mem. simpl. rewrite Ha.
    rewrite IH by lia. now rewrite <- app_assoc.
Qed.

Lemma FrameDescriptors_loop_run s p l :
  linked (frame_nodes (mem s)) frm_next p l →
  ∀ fuel acc, (length l ≤ fuel)%nat →
  run lib (FrameDescriptors_loop fuel p acc) s
  = Done (acc ++ map (fun an => mkFrameDescriptor (Some an.1) an.2) l) s.
Proof.
  induction 1 as [|a n l Ha Hl IH]; intros fuel acc Hf.
  - destruct fuel; simpl; now rewrite app_nil_r.
  - destruct fuel as [|fuel]; simpl in Hf; [lia |].
    simpl. unfold read_mem. simpl. rewrite Ha.
    rewrite IH by lia. now rewrite <- app_assoc.
Qed.

Lemma StreamInterfaces_run s a hn l fuel :
  mu s = unlocked →
  handle (this s) = Some a →
  handles (mem s) !! a = Some hn →
  linked (stream_ifs (mem s)) si_next (info_stream_ifs hn) l →
  (length l ≤ fuel)%nat →
  run lib (StreamInterfaces fuel) s
  = Done (map (fun an => mkStreamInterface (Some an.1) an.2) l) s.
Proof.
  intros Hm Hh Ha Hl Hf. open_state s. inversion Hm; subst.
  unfold StreamInterfaces. run_method. unfold read_mem. simpl. rewrite Ha.
  rewrite run_bind.
  erewrite StreamInterfaces_loop_run by eassumption.
  reflexivity.
Qed.

Lemma FormatDescriptors_run s i itf l fuel :
  deref (stream_ifs (mem s)) (si_itf i) = Some itf →
  linked (format_nodes (mem s)) fmt_next (format_descs itf) l →
  (length l ≤ fuel)%nat →
  run lib (FormatDescriptors fuel i) s
  = Done (map (fun an => mkFormatDescriptor (Some an.1) an.2) l) s.
Proof.
  intros Hi Hl Hf. unfold FormatDescriptors.
  destruct (si_itf i) as [a|] eqn:Ei; [| discriminate].
  run_method. unfold read_mem. rewrite Hi.
  erewrite FormatDescriptors_loop_run by eassumption. reflexivity.
Qed.

Lemma FrameDescriptors_run s d fmt l fuel :
  deref (format_nodes (mem s)) (fd_desc d) = Some fmt →
  linked (frame_nodes (mem s)) frm_next (frame_descs fmt) l →
  (length l ≤ fuel)%nat →
  run lib (FrameDescriptors fuel d) s
  = Done (map (fun an => mkFrameDescriptor (Some an.1) an.2) l) s.
Proof.
  intros Hd Hl Hf. unfold FrameDescriptors.
  destruct (fd_desc d) as [a|] eqn:Ed; [| discriminate].
  run_method. unfold read_mem. rewrite Hd.
  erewrite FrameDescriptors_loop_run by eassumption. reflexivity.
Qed.

Lemma GetStream_opened newError s a format width height fps :
  mu s = unlocked →
  handle (this s) = Some a →
  let c := C_uvc_get_stream_ctrl_format_size (Some a) format
             (cint width) (cint height) (cint fps) in
  let r := (native_call lib c (mem s)).1 in
  let s' := set_mem (native_call lib c (mem s)).2 c s in
  run lib (GetStream newError format width height fps) s
  = match newError (status r) with
    | Some err => Done (None, Some err) s'
    | None => Done (Some {| devh := Some a; ctrl := ctrl_out r |}, None) s'
    end.
Proof.
  intros Hm Hh. open_state s. inversion Hm; subst.
  unfold GetStream. run_method.
  destruct (native_call lib _ m) as [r m']. simpl.
  destruct (newError (status r)); reflexivity.
Qed.

Lemma ControlInterface_opened s a hn :
  mu s = unlocked →
  handle (this s) = Some a →
  handles (mem s) !! a = Some hn →
  run lib ControlInterface_ s
  = Done (Some {| ci_itf := info_ctrl_if hn;
                  ci_BcdUVC := uint16 (bcdUVC (info_ctrl_if hn));
                  ci_Number := uint8 (ci_bInterfaceNumber (info_ctrl_if hn));
                  ci_EndpointAddress := uint8 (ci_bEndpointAddress (info_ctrl_if hn));
                  ci_ClockFrequency := uint32 (dwClockFrequency (info_ctrl_if hn)) |}) s.
Proof.
  intros Hm Hh Ha. open_state s. inversion Hm; subst.
  unfold ControlInterface_. run_method. unfold read_mem. simpl. rewrite Ha.
  reflexivity.
Qed.

(** Whatever the shape of native memory, a walk that returns has read each
    value from an allocated node and stored that node's address in it. *)
Lemma FormatDescriptors_loop_sound s fuel :
  ∀ p acc l s',
    run lib (FormatDescriptors_loop fuel p acc) s = Done l s' →
    s' = s
    ∧ ∃ l', l = acc ++ l'
            ∧ Forall (fun d => ∃ a n, format_nodes (mem s) !! a = Some n
                                      ∧ d = mkFormatDescriptor (Some a) n) l'.
Proof.
  induction fuel as [|fuel IH]; intros [a|] acc l s' H; simpl in H;
    try discriminate;
    try (inversion H; subst; split; [reflexivity |];
         exists []; rewrite app_nil_r; split; [reflexivity | constructor]).
  unfold read_mem in H. simpl in H.
  destruct (format_nodes (mem s) !! a) as [n|] eqn:E; [| discriminate].
  apply IH in H. destruct H as (-> & l' & -> & HF).
  split; [reflexivity |].
  exists (mkFormatDescriptor (Some a) n :: l').
  rewrite <- app_assoc. split; [reflexivity |]. constructor; eauto.
Qed.

Lemma FrameDescriptors_loop_sound s fuel :
  ∀ p acc l s',
    run lib (FrameDescriptors_loop fuel p acc) s = Done l s' →
    s' = s
    ∧ ∃ l', l = acc ++ l'
            ∧ Forall (fun d => ∃ a n, frame_nodes (mem s) !! a = Some n
                                      ∧ d = mkFrameDescriptor (Some a) n) l'.
Proof.
  induction fuel as [|fuel IH]; intros [a|] acc l s' H; simpl in H;
    try discriminate;
    try (inversion H; subst; split; [reflexivity |];
         exists []; rewrite app_nil_r; split; [reflexivity | constructor]).
  unfold read_mem in H. simpl in H.
  destruct (frame_nodes (mem s) !! a) as [n|] eqn:E; [| discriminate].
  apply IH in H. destruct H as (-> & l' & -> & HF).
  split; [reflexivity |].
  exists (mkFrameDescriptor (Some a) n :: l').
  rewrite <- app_assoc. split; [reflexivity |]. constructor; eauto.
Qed.

Lemma FormatDescriptors_sound s fuel i l s' :
  run lib (FormatDescriptors fuel i) s = Done l s' →
  Forall (fun d => ∃ a n, format_nodes (mem s) !! a = Some n
                          ∧ d = mkFormatDescriptor (Some a) n) l.
Proof.
  unfold FormatDescriptors. destruct (si_itf i) as [a|]; simpl.
  - unfold read_mem. simpl. destruct (stream_ifs (mem s) !! a); [| discriminate].
    intros H. apply FormatDescriptors_loop_sound in H.
    destruct H as (_ & l' & -> & HF). exact HF.
  - intros H. inversion H. constructor.
Qed.

Lemma FrameDescriptors_sound s fuel d l s' :
  run lib (FrameDescriptors fuel d) s = Done l s' →
  Forall (fun fr => ∃ a n, frame_nodes (mem s) !! a = Some n
                           ∧ fr = mkFrameDescriptor (Some a) n) l.
Proof.
  unfold FrameDescriptors. destruct (fd_desc d) as [a|]; simpl.
  - unfold read_mem. simpl. destruct (format_nodes (mem s) !! a); [| discriminate].
    intros H. apply FrameDescriptors_loop_sound in H.
    destruct H as (_ & l' & -> & HF). exact HF.
  - intros H. inversion H. constructor.
Qed.

Lemma linked_Forall2 {N B} (heap : gmap addr N) (next : N → ptr)
    (P : B → addr * N → Prop) (f : addr * N → B) p l :
  linked heap next p l →
  (∀ a n, heap !! a = Some n → P (f (a, n)) (a, n)) →
  Forall2 P (map f l) l.
Proof.
  intros Hl HP. induction Hl as [|a n l Ha Hl IH]; simpl; constructor; auto.
Qed.

End Catalog.

Lemma Camera_stream_list :
  linked (stream_ifs (mem Camera.open_state)) si_next (Some 20%positive)
    [(20%positive, Camera.itf1); (21%positive, Camera.itf2)].
Proof. repeat (econstructor; [reflexivity |]). constructor. Qed.

Lemma Camera_format_list :
  linked (format_nodes (mem Camera.open_state)) fmt_next (Some 30%positive)
    [(30%positive, Camera.yuy2); (31%positive, Camera.mjpeg)].
Proof. repeat (econstructor; [reflexivity |]). constructor. Qed.

Lemma Camera_frame_list :
  linked (frame_nodes (mem Camera.open_state)) frm_next (Some 40%positive)
    [(40%positive, Camera.vga); (41%positive, Camera.qvga)].
Proof. repeat (econstructor; [reflexivity |]). constructor. Qed.

(** C9.  [FormatDescriptors] returns one descriptor per node of the native
    format list, in order, and in each both [BitsPerPixel] and [Flags] are
    the packed byte of that node, next to the node's subtype. *)
Theorem FormatDescriptors_expose_both_readings
    (lib : NativeLib) (s : State) (fuel : nat) (i : StreamInterface)
    (itf : uvc_streaming_interface) (l : list (addr * uvc_format_desc)) :
  deref (stream_ifs (mem s)) (si_itf i) = Some itf →
  linked (format_nodes (mem s)) fmt_next (format_descs itf) l →
  (length l ≤ fuel)%nat →
  ∃ descs,
    run lib (FormatDescriptors fuel i) s = Done descs s
    ∧ Forall2 (fun d an =>
                 format_nodes (mem s) !! an.1 = Some an.2
                 ∧ fd_BitsPerPixel d = uint8 (anon1 an.2)
                 ∧ fd_Flags d = uint8 (anon1 an.2)
                 ∧ fd_BitsPerPixel d = fd_Flags d
                 ∧ fd_Subtype d = fmt_bDescriptorSubtype an.2)
        descs l.
Proof.
  intros Hi Hl Hf. eexists. split.
  - eapply FormatDescriptors_run; eassumption.
  - eapply linked_Forall2; [exact Hl |].
    intros a n Ha. simpl. auto.
Qed.

Lemma FormatDescriptors_expose_both_readings_witness :
  ∃ descs,
    run Camera.lib (FormatDescriptors 8 (mkStreamInterface (Some 20%positive) Camera.itf1))
      Camera.open_state
    = Done descs Camera.open_state
    ∧ Forall2 (fun d an =>
                 format_nodes (mem Camera.open_state) !! an.1 = Some an.2
                 ∧ fd_BitsPerPixel d = uint8 (anon1 an.2)
                 ∧ fd_Flags d = uint8 (anon1 an.2)
                 ∧ fd_BitsPerPixel d = fd_Flags d
                 ∧ fd_Subtype d = fmt_bDescriptorSubtype an.2)
        descs [(30%positive, Camera.yuy2); (31%positive, Camera.mjpeg)].
Proof.
  apply (FormatDescriptors_expose_both_readings Camera.lib Camera.open_state 8
           (mkStreamInterface (Some 20%positive) Camera.itf1) Camera.itf1).
  - reflexivity.
  - exact Camera_format_list.
  - simpl. lia.
Defined.

(** The packed byte comes back unchanged. *)
Lemma uint8_byte (b : Z) : 0 ≤ b < 256 → uint8 b = b.
Proof. intros H. unfold uint8. now apply Z.mod_small. Qed.

(** No frame descriptor built by the source has intervals. *)
Lemma mkFrameDescriptor_Intervals (desc : ptr) (n : uvc_frame_desc) :
  fr_Intervals (mkFrameDescriptor desc n) = [].
Proof. reflexivity. Qed.

(** C7.  The first frame of the uncompressed format is in discrete mode and
    the device lists two intervals for it; the [FrameDescriptor] that
    [FrameDescriptors] returns for it has none. *)
Theorem FrameDescriptors_drop_discrete_intervals :
  let d := mkFormatDescriptor (Some 30%positive) Camera.yuy2 in
  let fr := mkFrameDescriptor (Some 40%positive) Camera.vga in
  run Camera.lib (FrameDescriptors 8 d) Camera.open_state
  = Done [fr; mkFrameDescriptor (Some 41%positive) Camera.qvga] Camera.open_state
  ∧ frame_nodes (mem Camera.open_state) !! 40%positive = Some Camera.vga
  ∧ fr_FrameIntervalType fr = 2
  ∧ intervals Camera.vga = [333333; 666666]
  ∧ fr_Intervals fr = [].
Proof.
  cbv zeta. split.
  - rewrite (FrameDescriptors_run Camera.lib _ _ Camera.yuy2
               [(40%positive, Camera.vga); (41%positive, Camera.qvga)]).
    + reflexivity.
    + reflexivity.
    + exact Camera_frame_list.
    + simpl. lia.
  - repeat split.
Qed.

(** C6, as the code has it.  On an open device [ControlInterface] returns
    copies of the control interface's fields, and [StreamInterfaces] returns
    one value per node of the native list: its three numbers are copies, and
    its [itf] is the address of the node.  Every [FormatDescriptor] and
    [FrameDescriptor] that the walks return likewise holds, in [desc], the
    address of the native node it was read from, and its numbers are copies
    of that node's fields.  A successful [GetStream] returns the device's
    own handle pointer next to the control block that the native call
    filled. *)
Theorem returned_values_point_into_native_memory
    (newError : Z → option error) (lib : NativeLib) (s : State) (fuel : nat)
    (a : addr) (hn : uvc_device_handle) (l : list (addr * uvc_streaming_interface))
    (format width height fps : Z) :
  mu s = unlocked →
  handle (this s) = Some a →
  handles (mem s) !! a = Some hn →
  linked (stream_ifs (mem s)) si_next (info_stream_ifs hn) l →
  (length l ≤ fuel)%nat →
  (∃ ci,
     run lib ControlInterface_ s = Done (Some ci) s
     ∧ ci_itf ci = info_ctrl_if hn
     ∧ ci_BcdUVC ci = uint16 (bcdUVC (info_ctrl_if hn))
     ∧ ci_Number ci = uint8 (ci_bInterfaceNumber (info_ctrl_if hn))
     ∧ ci_EndpointAddress ci = uint8 (ci_bEndpointAddress (info_ctrl_if hn))
     ∧ ci_ClockFrequency ci = uint32 (dwClockFrequency (info_ctrl_if hn)))
  ∧ (∃ ifs,
       run lib (StreamInterfaces fuel) s = Done ifs s
       ∧ Forall2 (fun i an =>
                    si_itf i = Some an.1
                    ∧ stream_ifs (mem s) !! an.1 = Some an.2
                    ∧ si_Number i = uint8 (si_bInterfaceNumber an.2)
                    ∧ si_EndpointAddress i = uint8 (si_bEndpointAddress an.2)
                    ∧ si_TerminalLink i = uint8 (bTerminalLink an.2))
           ifs l)
  ∧ (∀ n i descs s',
       run lib (FormatDescriptors n i) s = Done descs s' →
       Forall (fun d =>
                 ∃ a' nd,
                   fd_desc d = Some a'
                   ∧ format_nodes (mem s) !! a' = Some nd
                   ∧ fd_Subtype d = fmt_bDescriptorSubtype nd
                   ∧ fd_FormatIndex d = uint8 (bFormatIndex nd)
                   ∧ fd_NumFrameDescriptors d = uint8 (bNumFrameDescriptors nd)
                   ∧ fd_BitsPerPixel d = uint8 (anon1 nd)
                   ∧ fd_Flags d = uint8 (anon1 nd)
                   ∧ fd_DefaultFrameIndex d = uint8 (bDefaultFrameIndex nd)
                   ∧ fd_AspectRatioX d = uint8 (bAspectRatioX nd)
                   ∧ fd_AspectRatioY d = uint8 (bAspectRatioY nd)
                   ∧ fd_InterlaceFlags d = uint8 (bmInterlaceFlags nd)
                   ∧ fd_CopyProtect d = uint8 (bCopyProtect nd)
                   ∧ fd_VariableSize d = uint8 (bVariableSize nd))
         descs)
  ∧ (∀ n d descs s',
       run lib (FrameDescriptors n d) s = Done descs s' →
       Forall (fun fr =>
                 ∃ a' nd,
                   fr_desc fr = Some a'
                   ∧ frame_nodes (mem s) !! a' = Some nd
                   ∧ fr_Subtype fr = frm_bDescriptorSubtype nd
                   ∧ fr_FrameIndex fr = uint8 (bFrameIndex nd)
                   ∧ fr_Capabilities fr = uint8 (bmCapabilities nd)
                   ∧ fr_Width fr = uint16 (wWidth nd)
                   ∧ fr_Height fr = uint16 (wHeight nd)
                   ∧ fr_MinBitRate fr = uint32 (dwMinBitRate nd)
                   ∧ fr_MaxBitRate fr = uint32 (dwMaxBitRate nd)
                   ∧ fr_MaxVideoFrameBufferSize fr
                     = uint32 (dwMaxVideoFrameBufferSize nd)
                   ∧ fr_DefaultFrameInterval fr = uint32 (dwDefaultFrameInterval nd)
                   ∧ fr_MinFrameInterval fr = uint32 (dwMinFrameInterval nd)
                   ∧ fr_MaxFrameInterval fr = uint32 (dwMaxFrameInterval nd)
                   ∧ fr_FrameIntervalStep fr = uint32 (dwFrameIntervalStep nd)
                   ∧ fr_FrameIntervalType fr = uint8 (bFrameIntervalType nd)
                   ∧ fr_BytesPerLine fr = uint32 (dwBytesPerLine nd))
         descs)
  ∧ (let c := C_uvc_get_stream_ctrl_format_size (Some a) format
                (cint width) (cint height) (cint fps) in
     let r := (native_call lib c (mem s)).1 in
     newError (status r) = None →
     ∃ s', run lib (GetStream newError format width height fps) s
           = Done (Some {| devh := handle (this s); ctrl := ctrl_out r |}, None) s').
Proof.
  intros Hm Hh Ha Hl Hf. split; [| split; [| split; [| split]]].
  - eexists. split; [eapply ControlInterface_opened; eassumption |].
    repeat split.
  - eexists. split.
    + eapply StreamInterfaces_run; eassumption.
    + eapply linked_Forall2; [exact Hl |].
      intros a' n Hn. simpl. auto.
  - intros n i descs s' Hrun.
    apply FormatDescriptors_sound in Hrun.
    eapply Forall_impl; [exact Hrun |].
    intros d (a' & nd & Hn & ->). exists a', nd.
    split; [reflexivity |]. split; [exact Hn |]. simpl. repeat split.
  - intros n d descs s' Hrun.
    apply FrameDescriptors_sound in Hrun.
    eapply Forall_impl; [exact Hrun |].
    intros fr (a' & nd & Hn & ->). exists a', nd.
    split; [reflexivity |]. split; [exact Hn |]. simpl. repeat split.
  - intros c r Hok. eexists.
    rewrite (GetStream_opened lib newError s a) by assumption.
    fold c. fold r. rewrite Hok, Hh. reflexivity.
Qed.

Lemma returned_values_point_into_native_memory_witness :
  (∃ ifs,
     run Camera.lib (StreamInterfaces 8) Camera.open_state = Done ifs Camera.open_state
     ∧ Forall2 (fun i an =>
                  si_itf i = Some an.1
                  ∧ stream_ifs (mem Camera.open_state) !! an.1 = Some an.2
                  ∧ si_Number i = uint8 (si_bInterfaceNumber an.2)
                  ∧ si_EndpointAddress i = uint8 (si_bEndpointAddress an.2)
                  ∧ si_TerminalLink i = uint8 (bTerminalLink an.2))
         ifs [(20%positive, Camera.itf1); (21%positive, Camera.itf2)])
  ∧ (∃ s', run Camera.lib (GetStream Camera.newError 7 640 480 30) Camera.open_state
           = Done (Some {| devh := Some 10%positive; ctrl := [7; 640; 480; 30] |}, None) s')
  ∧ (∃ d1 d2,
       run Camera.lib (FormatDescriptors 8 (mkStreamInterface (Some 20%positive) Camera.itf1))
         Camera.open_state = Done [d1; d2] Camera.open_state
       ∧ ∃ a' nd,
           fd_desc d1 = Some a'
           ∧ format_nodes (mem Camera.open_state) !! a' = Some nd
           ∧ fd_FormatIndex d1 = uint8 (bFormatIndex nd)
           ∧ fd_BitsPerPixel d1 = uint8 (anon1 nd))
  ∧ (∃ f1 f2,
       run Camera.lib (FrameDescriptors 8 (mkFormatDescriptor (Some 30%positive) Camera.yuy2))
         Camera.open_state = Done [f1; f2] Camera.open_state
       ∧ ∃ a' nd,
           fr_desc f1 = Some a'
           ∧ frame_nodes (mem Camera.open_state) !! a' = Some nd
           ∧ fr_Width f1 = uint16 (wWidth nd)
           ∧ fr_Height f1 = uint16 (wHeight nd)).
Proof.
  destruct (returned_values_point_into_native_memory Camera.newError Camera.lib
              Camera.open_state 8 10%positive Camera.the_handle
              [(20%positive, Camera.itf1); (21%positive, Camera.itf2)] 7 640 480 30)
    as (_ & H1 & H3 & H4 & H2).
  - reflexivity.
  - reflexivity.
  - reflexivity.
  - exact Camera_stream_list.
  - simpl. lia.
  - split; [exact H1 |]. split; [apply H2; reflexivity |]. split.
    + assert (E : run Camera.lib
                    (FormatDescriptors 8 (mkStreamInterface (Some 20%positive) Camera.itf1))
                    Camera.open_state
                  = Done [mkFormatDescriptor (Some 30%positive) Camera.yuy2;
                          mkFormatDescriptor (Some 31%positive) Camera.mjpeg]
                      Camera.open_state).
      { rewrite (FormatDescriptors_run Camera.lib _ _ Camera.itf1
                   [(30%positive, Camera.yuy2); (31%positive, Camera.mjpeg)]);
          [reflexivity | reflexivity | exact Camera_format_list | simpl; lia]. }
      do 2 eexists. split; [exact E |].
      pose proof (H3 _ _ _ _ E) as HF. inversion HF as [|d l Hd _]; subst.
      destruct Hd as (a' & nd & Hp & Hn & _ & Hi & _ & Hb & _).
      exists a', nd. auto.
    + assert (E : run Camera.lib
                    (FrameDescriptors 8 (mkFormatDescriptor (Some 30%positive) Camera.yuy2))
                    Camera.open_state
                  = Done [mkFrameDescriptor (Some 40%positive) Camera.vga;
                          mkFrameDescriptor (Some 41%positive) Camera.qvga]
                      Camera.open_state).
      { rewrite (FrameDescriptors_run Camera.lib _ _ Camera.yuy2
                   [(40%positive, Camera.vga); (41%positive, Camera.qvga)]);
          [reflexivity | reflexivity | exact Camera_frame_list | simpl; lia]. }
      do 2 eexists. split; [exact E |].
      pose proof (H4 _ _ _ _ E) as HF. inversion HF as [|d l Hd _]; subst.
      destruct Hd as (a' & nd & Hp & Hn & _ & _ & _ & Hw & Hh & _).
      exists a', nd. auto.
Defined.

(** C6, as stated, fails: the first interface that [StreamInterfaces]
    returns holds the address of a live native node, and the stream that
    [GetStream] returns holds the handle.  After [Close] has freed them,
    [FormatDescriptors] on that same value reads freed memory. *)
Lemma returned_interface_dangles_after_Close :
  let i := mkStreamInterface (Some 20%positive) Camera.itf1 in
  ∃ rest s1 s2,
    run Camera.lib (StreamInterfaces 8) Camera.open_state = Done (i :: rest) Camera.open_state
    ∧ si_itf i = Some 20%positive
    ∧ stream_ifs (mem Camera.open_state) !! 20%positive = Some Camera.itf1
    ∧ run Camera.lib (GetStream Camera.newError 7 640 480 30) Camera.open_state
      = Done (Some {| devh := Some 10%positive; ctrl := [7; 640; 480; 30] |}, None) s1
    ∧ run Camera.lib Close Camera.open_state = Done None s2
    ∧ stream_ifs (mem s2) !! 20%positive = None
    ∧ run Camera.lib (FormatDescriptors 8 i) s2 = Fault.
Proof.
  cbv zeta. do 3 eexists.
  split; [rewrite (StreamInterfaces_run Camera.lib _ 10%positive Camera.the_handle
                     [(20%positive, Camera.itf1); (21%positive, Camera.itf2)] 8);
          [reflexivity | reflexivity | reflexivity | reflexivity
          | exact Camera_stream_list | simpl; lia] |].
  split; [reflexivity |]. split; [reflexivity |].
  split; [rewrite (GetStream_opened Camera.lib Camera.newError _ 10%positive)
            by reflexivity; reflexivity |].
  split; [rewrite Close_run by reflexivity; reflexivity |].
  split; reflexivity.
Qed.

(** ** Two goroutines: the lock discipline *)

Lemma mutex_of_comm (ha hb : Held) : mutex_of ha hb = mutex_of hb ha.
Proof. destruct ha, hb; reflexivity. Qed.

(** Outside the lock a disciplined program that takes no lock has
    returned. *)
Lemma guarded_outside_returns {R} (p : Prog R) :
  guarded HNone p → no_acquire p → ∃ r, p = Ret r.
Proof.
  destruct p as [r| |X e k]; simpl.
  - eauto.
  - congruence.
  - intros [Ha _] [He _]. exfalso.
    destruct e; simpl in *; try congruence. destruct c; congruence.
Qed.

Lemma single_section_start {R} (m : Held) (p : Prog R) :
  single_section m p → reads_native p = false.
Proof.
  destruct p as [r| |X e k]; simpl; try reflexivity.
  intros [He _]. destruct e; simpl in *; try reflexivity; contradiction.
Qed.

Section Discipline.

Variable lib : NativeLib.

(** One step of a disciplined goroutine keeps it disciplined and keeps
    the mutex in line with what the two goroutines hold. *)
Lemma thread_step_inv {R} (t t' : Thread R) (s s' : State) (ho : Held) :
  guarded (held t) (code t) →
  mutex_of (held t) ho = Some (mu s) →
  thread_step lib t s = TNext t' s' →
  guarded (held t') (code t') ∧ mutex_of (held t') ho = Some (mu s').
Proof.
  destruct t as [h p]. unfold thread_step. simpl.
  destruct p as [r| |X e k]; simpl; intros Hg Hmu Hs.
  - discriminate.
  - inversion Hs; subst. auto.
  - destruct Hg as [Ha Hk].
    destruct (do_eff lib e s) as [x s1| |] eqn:E; inversion Hs; subst; clear Hs.
    simpl. split; [apply Hk |].
    destruct s as [dv [rd wr] m tr].
    destruct e; simpl in *; destruct h; try congruence;
      destruct ho; simpl in Hmu; try discriminate Hmu;
      inversion Hmu; subst rd wr; simpl in E;
      try destruct (native_open lib _ _ _) as [[? ?] ?];
      try destruct (native_call lib _ _) as [? ?];
      unfold read_mem in E; try destruct (deref _ _);
      try discriminate E; inversion E; subst; reflexivity.
Qed.

(** It also keeps its place in its one critical section. *)
Lemma thread_step_one_section {R} (m : Held) (p0 : Prog R) (t t' : Thread R)
    (s s' : State) :
  single_section m p0 →
  guarded (held t) (code t) →
  one_section m p0 t →
  thread_step lib t s = TNext t' s' →
  one_section m p0 t'.
Proof.
  destruct t as [h p]. unfold thread_step, one_section. simpl.
  intros H0 Hg [[-> ->] | [[-> Hn] | [-> [r ->]]]] Hs.
  - destruct p0 as [r| |X e k]; simpl in H0; try contradiction.
    destruct H0 as [He Hk].
    destruct (do_eff lib e s) as [x s1| |]; inversion Hs; subst; clear Hs.
    right; left. simpl. split; [| apply Hk].
    destruct e; simpl in *; try contradiction; congruence.
  - destruct p as [r| |X e k]; simpl in *.
    + discriminate.
    + inversion Hs; subst. right; left. simpl. auto.
    + destruct Hg as [Ha Hk]. destruct Hn as [He Hnk].
      destruct (do_eff lib e s) as [x s1| |]; inversion Hs; subst; clear Hs.
      simpl.
      destruct e; simpl in *; try contradiction;
        try (right; left; split; [reflexivity | apply Hnk]);
        right; right; (split; [reflexivity |]);
        apply guarded_outside_returns; auto.
  - discriminate.
Qed.

(** A reader does not change the handle field. *)
Lemma reader_step_keeps_handle {R} (t t' : Thread R) (s s' : State) :
  held t = HRead →
  guarded (held t) (code t) →
  thread_step lib t s = TNext t' s' →
  handle (this s') = handle (this s).
Proof.
  destruct t as [h p]. unfold thread_step. simpl. intros -> Hg Hs.
  destruct p as [r| |X e k]; simpl in *.
  - discriminate.
  - now inversion Hs.
  - destruct Hg as [Ha _].
    destruct (do_eff lib e s) as [x s1| |] eqn:E; inversion Hs; subst; clear Hs.
    destruct e; simpl in *; try discriminate Ha;
      try destruct (native_call lib _ _) as [? ?];
      unfold read_mem in E; try destruct (deref _ _);
      try destruct (readers (mu s)); try destruct (writer (mu s));
      try discriminate E; inversion E; subst; reflexivity.
Qed.

Lemma sys_step_inv {RA RB} (c c' : Sys RA RB) :
  sys_inv c → sys_step lib c c' → sys_inv c'.
Proof.
  intros (Ha & Hb & Hmu) Hs. destruct Hs as [c t s' Hs | c t s' Hs]; unfold sys_inv; simpl.
  - destruct (thread_step_inv _ _ _ _ _ Ha Hmu Hs) as [Ha' Hmu']. auto.
  - rewrite mutex_of_comm in Hmu.
    destruct (thread_step_inv _ _ _ _ _ Hb Hmu Hs) as [Hb' Hmu'].
    rewrite mutex_of_comm in Hmu'. auto.
Qed.

(** Two methods with one critical section each, started on a free mutex. *)
Lemma reachable_inv {RA RB} (ma mb : Held) (pa : Prog RA) (pb : Prog RB)
    (s0 : State) (c : Sys RA RB) :
  guarded HNone pa → single_section ma pa →
  guarded HNone pb → single_section mb pb →
  mu s0 = unlocked →
  reachable lib (start pa pb s0) c →
  sys_inv c ∧ one_section ma pa (thA c) ∧ one_section mb pb (thB c).
Proof.
  intros Hga Hsa Hgb Hsb Hm Hr.
  assert (H0 : sys_inv (start pa pb s0)
               ∧ one_section ma pa (thA (start pa pb s0))
               ∧ one_section mb pb (thB (start pa pb s0))).
  { unfold sys_inv, one_section, start. simpl. rewrite Hm. auto 10. }
  unfold reachable in Hr.
  induction Hr as [c | c c1 c2 Hs Hr IH]; [exact H0 |].
  apply IH. destruct H0 as (Hi & Ha & Hb).
  split; [eapply sys_step_inv; eassumption |].
  destruct Hi as (Hia & Hib & _).
  destruct Hs as [c t s' Hs | c t s' Hs]; simpl; split; auto.
  - eapply thread_step_one_section; eassumption.
  - eapply thread_step_one_section; eassumption.
Qed.

Lemma exec_reachable {RA RB} (sched : list bool) (c c' : Sys RA RB) :
  exec lib sched c = Some c' → reachable lib c c'.
Proof.
  revert c. induction sched as [|[|] sched IH]; intros c H; simpl in H.
  - inversion H; subst. apply rtc_refl.
  - destruct (thread_step lib (thA c) (shared c)) as [t s'| | |] eqn:E;
      try discriminate.
    eapply rtc_l; [| apply IH; exact H]. now apply step_A.
  - destruct (thread_step lib (thB c) (shared c)) as [t s'| | |] eqn:E;
      try discriminate.
    eapply rtc_l; [| apply IH; exact H]. now apply step_B.
Qed.

End Discipline.

(** The loop of [StreamInterfaces], with the deferred [RUnlock] after it. *)
Lemma StreamInterfaces_loop_guarded (fuel : nat) (itf : ptr) (ifs : list StreamInterface) :
  guarded HRead (r ← StreamInterfaces_loop fuel itf ifs; perform ERUnlock;; Ret r)
  ∧ no_acquire (r ← StreamInterfaces_loop fuel itf ifs; perform ERUnlock;; Ret r).
Proof.
  revert itf ifs. induction fuel as [|fuel IH]; intros [a|] ifs;
    unfold mbind, Prog_bind, perform; simpl; repeat split; try discriminate.
  - intros n. apply IH.
  - intros n. apply IH.
Qed.

Lemma StreamInterfaces_guarded (fuel : nat) :
  guarded HNone (StreamInterfaces fuel) ∧ single_section HRead (StreamInterfaces fuel).
Proof.
  unfold StreamInterfaces, rlocked, mbind, Prog_bind, perform. simpl.
  repeat split; try discriminate.
  - intros [a|]; simpl; repeat split; try discriminate.
    intros n. apply StreamInterfaces_loop_guarded.
  - intros [a|]; simpl; repeat split.
    intros n. apply StreamInterfaces_loop_guarded.
Qed.

Lemma ControlInterface_guarded :
  guarded HNone ControlInterface_ ∧ single_section HRead ControlInterface_.
Proof.
  unfold ControlInterface_, rlocked, mbind, Prog_bind, perform. simpl.
  repeat split; try discriminate; intros [a|]; simpl; repeat split; discriminate.
Qed.

Lemma Close_guarded :
  guarded HNone Close ∧ single_section HWrite Close.
Proof.
  unfold Close, locked, mbind, Prog_bind, perform. simpl.
  repeat split; discriminate.
Qed.

Ltac discipline :=
  unfold locked, rlocked, mbind, Prog_bind, perform; simpl;
  repeat split; try discriminate;
  try (intros [?|]; simpl; repeat split; try discriminate).

(** Every other method of [Device] that takes the mutex follows it too. *)
Lemma Device_methods_guarded (newError : Z → option error) (x : Z) :
  (guarded HNone (Open newError) ∧ single_section HWrite (Open newError))
  ∧ (guarded HNone (SetAEMode newError x) ∧ single_section HRead (SetAEMode newError x))
  ∧ (guarded HNone (SetAEPriority newError x)
     ∧ single_section HRead (SetAEPriority newError x))
  ∧ (guarded HNone (SetExposureRelative newError x)
     ∧ single_section HRead (SetExposureRelative newError x))
  ∧ (guarded HNone (SetBrightness newError x)
     ∧ single_section HRead (SetBrightness newError x))
  ∧ (guarded HNone (GetStream newError x x x x)
     ∧ single_section HRead (GetStream newError x x x x))
  ∧ (guarded HNone Ref ∧ single_section HRead Ref)
  ∧ (guarded HNone Unref ∧ single_section HRead Unref)
  ∧ (guarded HNone IsIdle ∧ single_section HRead IsIdle)
  ∧ (guarded HNone IsClosed ∧ single_section HRead IsClosed).
Proof.
  repeat split.
  all: try (unfold Open; discipline; intros r; destruct (newError r); simpl;
            repeat split; discriminate).
  all: try (unfold Open; discipline; destruct (newError _); simpl; auto).
  all: try (unfold GetStream; discipline; intros r; destruct (newError _); simpl;
            repeat split; discriminate).
  all: try (unfold GetStream; discipline; destruct (newError _); simpl; auto).
  all: unfold SetAEMode, SetAEPriority, SetExposureRelative, SetBrightness,
         Ref, Unref, IsIdle, IsClosed; discipline.
Qed.

Lemma FormatDescriptors_loop_takes_no_lock (fuel : nat) (desc : ptr) (descs : list FormatDescriptor) :
  no_acquire (FormatDescriptors_loop fuel desc descs).
Proof.
  revert desc descs. induction fuel as [|fuel IH]; intros [a|] descs;
    unfold mbind, Prog_bind, perform; simpl; auto.
Qed.

Lemma FrameDescriptors_loop_takes_no_lock (fuel : nat) (desc : ptr) (descs : list FrameDescriptor) :
  no_acquire (FrameDescriptors_loop fuel desc descs).
Proof.
  revert desc descs. induction fuel as [|fuel IH]; intros [a|] descs;
    unfold mbind, Prog_bind, perform; simpl; auto.
Qed.

(** Neither walk below [StreamInterfaces] takes the mutex. *)
Lemma FormatDescriptors_takes_no_lock (fuel : nat) (i : StreamInterface) :
  no_acquire (FormatDescriptors fuel i).
Proof.
  unfold FormatDescriptors. destruct (si_itf i); simpl; [| exact I].
  split; [exact I |]. intros n. apply FormatDescriptors_loop_takes_no_lock.
Qed.

Lemma FrameDescriptors_takes_no_lock (fuel : nat) (d : FormatDescriptor) :
  no_acquire (FrameDescriptors fuel d).
Proof.
  unfold FrameDescriptors. destruct (fd_desc d); simpl; [| exact I].
  split; [exact I |]. intros n. apply FrameDescriptors_loop_takes_no_lock.
Qed.

Section BesideClose.

Variable lib : NativeLib.
Context {R : Type}.
Variable query : Prog R.
Hypothesis query_guarded : guarded HNone query.
Hypothesis query_section : single_section HRead query.

Variable s0 : State.
Variable c : Sys R (option error).
Hypothesis free : mu s0 = unlocked.
Hypothesis reached : reachable lib (start query Close s0) c.

Lemma query_position :
  sys_inv c ∧ one_section HRead query (thA c) ∧ one_section HWrite Close (thB c).
Proof.
  destruct Close_guarded as [Hg Hs].
  eapply reachable_inv; eauto.
Qed.

(** From its first effect to its return the query holds the read lock. *)
Lemma query_holds_read_lock :
  (held (thA c) = HNone ∧ code (thA c) = query)
  ∨ held (thA c) = HRead
  ∨ ∃ r, code (thA c) = Ret r.
Proof.
  destruct query_position as (_ & [H | [[H _] | [_ H]]] & _); auto.
Qed.

Lemma query_reads_under_lock :
  reads_native (code (thA c)) = true → held (thA c) = HRead.
Proof.
  intros Hread.
  destruct query_holds_read_lock as [[_ H] | [H | [r H]]]; [| exact H |].
  - rewrite H, (single_section_start HRead) in Hread by assumption. discriminate.
  - rewrite H in Hread. discriminate.
Qed.

(** While it does, [Close] holds nothing and cannot move, and no step of
    the system changes the handle field. *)
Lemma Close_waits_for_query :
  held (thA c) = HRead →
  held (thB c) = HNone
  ∧ (∀ t s', thread_step lib (thB c) (shared c) ≠ TNext t s')
  ∧ (∀ c', sys_step lib c c' → handle (this (shared c')) = handle (this (shared c))).
Proof.
  intros Hread.
  destruct query_position as ((Hga & _ & Hmu) & _ & Hb).
  rewrite Hread in Hmu.
  assert (Hwait : held (thB c) = HNone
                  ∧ ∀ t s', thread_step lib (thB c) (shared c) ≠ TNext t s').
  { destruct Hb as [[Hh Hc] | [[Hh _] | [Hh [r Hc]]]].
    - split; [exact Hh |]. intros t s'. rewrite Hh in Hmu. simpl in Hmu.
      inversion Hmu as [Hmu']. unfold thread_step. rewrite Hc.
      unfold Close, locked, mbind, Prog_bind, perform. simpl.
      rewrite <- Hmu'. simpl. discriminate.
    - rewrite Hh in Hmu. discriminate.
    - split; [exact Hh |]. intros t s'. unfold thread_step. rewrite Hc. discriminate. }
  destruct Hwait as [Hh Hw]. split; [exact Hh |]. split; [exact Hw |].
  intros c' Hs. inversion Hs as [c1 t s' Ht | c1 t s' Ht]; subst; simpl.
  - eapply reader_step_keeps_handle; [exact Hread | exact Hga | exact Ht].
  - elim (Hw _ _ Ht).
Qed.

End BesideClose.

(** C1, as the code has it.  Run next to [Close], in any interleaving:
    from its first effect to its return [StreamInterfaces] holds the read
    lock, so each of its reads of the handle field and of native nodes is
    under the lock; for as long as it holds it, [Close] holds nothing and
    cannot take a step, and the handle field does not change.
    [ControlInterface] holds the lock in the same way.  The lock covers the
    walk of the interface list only: [FormatDescriptors] and
    [FrameDescriptors] never take it. *)
Theorem StreamInterfaces_walks_under_the_read_lock (lib : NativeLib) (fuel : nat) :
  lock_spans lib (StreamInterfaces fuel)
  ∧ lock_spans lib ControlInterface_
  ∧ (∀ s0 c,
       mu s0 = unlocked →
       reachable lib (start (StreamInterfaces fuel) Close s0) c →
       (reads_native (code (thA c)) = true → held (thA c) = HRead)
       ∧ (held (thA c) = HRead →
          held (thB c) = HNone
          ∧ (∀ t s', thread_step lib (thB c) (shared c) ≠ TNext t s')
          ∧ (∀ c', sys_step lib c c' →
                   handle (this (shared c')) = handle (this (shared c)))))
  ∧ (∀ n i, no_acquire (FormatDescriptors n i))
  ∧ (∀ n d, no_acquire (FrameDescriptors n d)).
Proof.
  destruct (StreamInterfaces_guarded fuel) as [Hg Hs].
  destruct ControlInterface_guarded as [Hg' Hs'].
  split; [| split; [| split; [| split]]].
  - intros s0 c Hm Hr. now apply (query_holds_read_lock lib _ Hg Hs s0).
  - intros s0 c Hm Hr. now apply (query_holds_read_lock lib _ Hg' Hs' s0).
  - intros s0 c Hm Hr. split.
    + now apply (query_reads_under_lock lib _ Hg Hs s0).
    + now apply (Close_waits_for_query lib _ Hg Hs s0).
  - intros n i. apply FormatDescriptors_takes_no_lock.
  - intros n d. apply FrameDescriptors_takes_no_lock.
Qed.

(** Three effects into [StreamInterfaces] on the open camera: the lock is
    taken, the handle is loaded and read, and the walk is about to read the
    first interface. *)
Lemma StreamInterfaces_mid_walk :
  match exec Camera.lib [true; true; true]
          (start (StreamInterfaces 8) Close Camera.open_state) with
  | Some c =>
      reads_native (code (thA c)) = true
      ∧ thread_step Camera.lib (thB c) (shared c) = TBlocked
  | None => False
  end.
Proof. vm_compute. repeat split. Qed.

Lemma StreamInterfaces_walks_under_the_read_lock_witness :
  ∃ c, exec Camera.lib [true; true; true]
         (start (StreamInterfaces 8) Close Camera.open_state) = Some c
       ∧ held (thA c) = HRead
       ∧ held (thB c) = HNone
       ∧ ∀ t s', thread_step Camera.lib (thB c) (shared c) ≠ TNext t s'.
Proof.
  assert (H := StreamInterfaces_mid_walk).
  destruct (exec Camera.lib [true; true; true]
              (start (StreamInterfaces 8) Close Camera.open_state)) as [c|] eqn:E;
    [| contradiction].
  destruct H as [Hread _].
  destruct (StreamInterfaces_walks_under_the_read_lock Camera.lib 8) as (_ & _ & H & _).
  assert (Hr := exec_reachable Camera.lib _ _ _ E).
  destruct (H Camera.open_state c eq_refl Hr) as [H1 H2].
  destruct (H2 (H1 Hread)) as (Hb & Hw & _).
  exists c. split; [reflexivity |]. split; [exact (H1 Hread) |]. split; assumption.
Defined.

Lemma late_close_runs :
  match exec Camera.lib Camera.late_close (start (catalog 8) Close Camera.open_state) with
  | Some c =>
      reads_native (code (thA c)) = true
      ∧ held (thA c) = HNone
      ∧ code (thB c) = Ret None
      ∧ handle (this (shared c)) = nil
      ∧ mu (shared c) = unlocked
      ∧ thread_step Camera.lib (thA c) (shared c) = TFaulted
  | None => False
  end.
Proof. vm_compute. repeat split. Qed.

(** C1, as stated, fails on the walk of the formats: [Close] runs to its
    end after [StreamInterfaces] has returned and before [catalog] reads
    the first format list; [catalog] is then in the middle of its work with
    no lock held, the handle is nil and the read faults on freed memory. *)
Lemma Close_completes_inside_the_catalog_walk :
  (∃ c, reachable Camera.lib (start (catalog 8) Close Camera.open_state) c
        ∧ reads_native (code (thA c)) = true
        ∧ held (thA c) = HNone
        ∧ code (thB c) = Ret None
        ∧ handle (this (shared c)) = nil
        ∧ thread_step Camera.lib (thA c) (shared c) = TFaulted)
  ∧ ¬ lock_spans Camera.lib (catalog 8).
Proof.
  assert (H := late_close_runs).
  destruct (exec Camera.lib Camera.late_close
              (start (catalog 8) Close Camera.open_state)) as [c|] eqn:E;
    [| contradiction].
  destruct H as (Hread & Hheld & Hb & Hh & Hmu & Hf).
  apply exec_reachable in E.
  split.
  - exists c. auto 10.
  - intros Hspan.
    destruct (Hspan Camera.open_state c eq_refl E) as [[_ H] | [H | [r H]]].
    + rewrite H in Hread. discriminate.
    + rewrite Hheld in H. discriminate.
    + rewrite H in Hread. discriminate.
Qed.

(** * Further properties of [device.go] *)

(** ** Calls on an open device *)

Section OpenDevice.

Variable newError : Z → option error.
Variable lib : NativeLib.

Lemma setter_opened (mk : ptr → NativeCall) (s : State) (a : addr) :
  mu s = unlocked →
  handle (this s) = Some a →
  run lib (rlocked (h ← perform ELoadHandle;
                    if is_nil h then Ret (Some ErrDeviceClosed)
                    else r ← perform (ECall (mk h)); Ret (newError (status r)))) s
  = Done (newError (status (native_call lib (mk (Some a)) (mem s)).1))
      (set_mem (native_call lib (mk (Some a)) (mem s)).2 (mk (Some a)) s).
Proof.
  intros Hm Hh. open_state s. inversion Hm; subst.
  run_method. destruct (native_call lib (mk (Some a)) m) as [r m']. reflexivity.
Qed.

Lemma IsClosed_run (s : State) :
  mu s = unlocked → run lib IsClosed s = Done (is_nil (handle (this s))) s.
Proof. intros Hm. open_state s. inversion Hm; subst. reflexivity. Qed.

Lemma IsIdle_closed (s : State) :
  handle (this s) = nil → mu s = unlocked → run lib IsIdle s = Done true s.
Proof. closed_case s. Qed.

Lemma IsIdle_opened (s : State) (a : addr) :
  mu s = unlocked →
  handle (this s) = Some a →
  run lib IsIdle s
  = match handles (mem s) !! a with
    | Some hn => Done (is_nil (streams hn)) s
    | None => Fault
    end.
Proof.
  intros Hm Hh. open_state s. inversion Hm; subst.
  unfold IsIdle. run_method. unfold read_mem. simpl.
  destruct (handles m !! a); reflexivity.
Qed.

End OpenDevice.

Lemma uint8_small (z : Z) : 0 ≤ z < 256 → uint8 z = z.
Proof. intros H. unfold uint8. apply Z.mod_small. lia. Qed.

Lemma sint_small (w z : Z) :
  0 < w → - 2 ^ (w - 1) ≤ z < 2 ^ (w - 1) → sint w z = z.
Proof.
  intros Hw H. unfold sint.
  assert (E : 2 ^ w = 2 * 2 ^ (w - 1)).
  { replace w with (Z.succ (w - 1)) at 1 by lia. apply Z.pow_succ_r. lia. }
  rewrite Z.mod_small; lia.
Qed.

(** X1.  On an open device each control setter makes exactly one native
    call, on the device's handle and with the caller's value, returns the
    translation of its status, and leaves the device and the mutex as they
    were.  The ranges are those of the Go parameter types. *)
Theorem setters_pass_through
    (newError : Z → option error) (lib : NativeLib) (s : State) (a : addr)
    (mode priority exposure brightness : Z) :
  mu s = unlocked →
  handle (this s) = Some a →
  0 ≤ mode < 256 →
  0 ≤ priority < 256 →
  -128 ≤ exposure < 128 →
  -32768 ≤ brightness < 32768 →
  let after c := set_mem (native_call lib c (mem s)).2 c s in
  let answer c := newError (status (native_call lib c (mem s)).1) in
  run lib (SetAEMode newError mode) s
  = Done (answer (C_uvc_set_ae_mode (Some a) mode))
      (after (C_uvc_set_ae_mode (Some a) mode))
  ∧ run lib (SetAEPriority newError priority) s
    = Done (answer (C_uvc_set_ae_priority (Some a) priority))
        (after (C_uvc_set_ae_priority (Some a) priority))
  ∧ run lib (SetExposureRelative newError exposure) s
    = Done (answer (C_uvc_set_exposure_rel (Some a) exposure))
        (after (C_uvc_set_exposure_rel (Some a) exposure))
  ∧ run lib (SetBrightness newError brightness) s
    = Done (answer (C_uvc_set_brightness (Some a) brightness))
        (after (C_uvc_set_brightness (Some a) brightness))
  ∧ ∀ c, this (after c) = this s ∧ mu (after c) = mu s
         ∧ trace (after c) = trace s ++ [c].
Proof.
  intros Hm Hh Hmode Hprio Hexp Hbr after answer.
  unfold SetAEMode, SetAEPriority, SetExposureRelative, SetBrightness.
  rewrite (setter_opened newError lib (fun h => C_uvc_set_ae_mode h (uchar mode)) s a),
    (setter_opened newError lib (fun h => C_uvc_set_ae_priority h (uchar priority)) s a),
    (setter_opened newError lib (fun h => C_uvc_set_exposure_rel h (schar exposure)) s a),
    (setter_opened newError lib (fun h => C_uvc_set_brightness h (short brightness)) s a)
    by assumption.
  unfold uchar, schar, short.
  rewrite !uint8_small by assumption.
  rewrite (sint_small 8 exposure), (sint_small 16 brightness) by (simpl; lia).
  repeat split.
Qed.

Lemma setters_pass_through_witness :
  ∃ s', run Camera.lib (SetBrightness Camera.newError 100) Camera.open_state = Done None s'
        ∧ trace s' = trace Camera.open_state
                     ++ [C_uvc_set_brightness (Some 10%positive) 100]
        ∧ this s' = this Camera.open_state.
Proof.
  destruct (setters_pass_through Camera.newError Camera.lib Camera.open_state
              10%positive 2 1 (-1) 100)
    as (_ & _ & _ & H & Hs); try reflexivity; try lia.
  eexists. split; [exact H |].
  destruct (Hs (C_uvc_set_brightness (Some 10%positive) 100)) as (Ht & _ & Htr).
  split; assumption.
Defined.

(** X2.  [GetStream] always returns, with exactly one of a stream and an
    error.  On a closed device the error is [ErrDeviceClosed] and nothing
    has happened.  On an open device it makes exactly one native call, the
    negotiation on the device's handle; the error is the translation of
    that call's status, and when that is nil the stream holds the device's
    handle and the control block the call filled, otherwise there is no
    stream.  It leaves the device's fields and the mutex as they were. *)
Theorem GetStream_stream_xor_error
    (newError : Z → option error) (lib : NativeLib) (s : State)
    (format width height fps : Z) :
  mu s = unlocked →
  ∃ st err s',
    run lib (GetStream newError format width height fps) s = Done (st, err) s'
    ∧ ((st = None ∧ err ≠ None)
       ∨ (err = None ∧ handle (this s) ≠ nil
          ∧ ∃ x, st = Some x ∧ devh x = handle (this s)))
    ∧ (handle (this s) = nil → err = Some ErrDeviceClosed ∧ s' = s)
    ∧ (handle (this s) ≠ nil →
       let c := C_uvc_get_stream_ctrl_format_size (handle (this s)) format
                  (cint width) (cint height) (cint fps) in
       let r := (native_call lib c (mem s)).1 in
       err = newError (status r)
       ∧ (newError (status r) = None →
          st = Some {| devh := handle (this s); ctrl := ctrl_out r |})
       ∧ (newError (status r) ≠ None → st = None)
       ∧ s' = set_mem (native_call lib c (mem s)).2 c s)
    ∧ this s' = this s
    ∧ mu s' = unlocked.
Proof.
  intros Hm. destruct (handle (this s)) as [a|] eqn:Hh.
  - rewrite (GetStream_opened lib newError s a format width height fps Hm Hh).
    cbv zeta.
    destruct (newError _) as [e|] eqn:Hr; do 3 eexists; (split; [reflexivity |]).
    + split; [left; split; [reflexivity | discriminate] |].
      split; [discriminate |].
      split; [intros _; split; [reflexivity |]; split; [discriminate |];
              split; [reflexivity | reflexivity] |].
      split; [reflexivity | exact Hm].
    + split; [right; split; [reflexivity |]; split; [discriminate | eauto] |].
      split; [discriminate |].
      split; [intros _; split; [reflexivity |]; split; [reflexivity |];
              split; [intros H; now elim H | reflexivity] |].
      split; [reflexivity | exact Hm].
  - rewrite GetStream_closed by assumption.
    do 3 eexists. split; [reflexivity |].
    split; [left; split; [reflexivity | discriminate] |].
    split; [auto |].
    split; [intros H; now elim H |].
    split; [reflexivity | exact Hm].
Qed.

(** The camera has a 640x480 mode and no 1920x1080 mode: a stream with the
    negotiated block in the first case, the translated error and no stream
    in the second, one native call each. *)
Lemma GetStream_stream_xor_error_witness :
  (∃ s',
     run Camera.lib (GetStream Camera.newError 7 640 480 30) Camera.open_state
     = Done (Some {| devh := Some 10%positive; ctrl := [7; 640; 480; 30] |}, None) s'
     ∧ trace s' = trace Camera.open_state
                  ++ [C_uvc_get_stream_ctrl_format_size (Some 10%positive) 7 640 480 30])
  ∧ (∃ s',
       run Camera.lib (GetStream Camera.newError 7 1920 1080 30) Camera.open_state
       = Done (None, Some (Error_ (-51))) s'
       ∧ trace s' = trace Camera.open_state
                    ++ [C_uvc_get_stream_ctrl_format_size (Some 10%positive) 7 1920 1080 30]).
Proof.
  split.
  - destruct (GetStream_stream_xor_error Camera.newError Camera.lib Camera.open_state
                7 640 480 30 eq_refl) as (st & err & s' & Hrun & _ & _ & H & _).
    destruct H as (He & Hs & _ & Hs'); [discriminate |].
    exists s'. rewrite Hrun, He, Hs by reflexivity.
    split; [reflexivity |]. rewrite Hs'. reflexivity.
  - destruct (GetStream_stream_xor_error Camera.newError Camera.lib Camera.open_state
                7 1920 1080 30 eq_refl) as (st & err & s' & Hrun & _ & _ & H & _).
    destruct H as (He & _ & Hs & Hs'); [discriminate |].
    exists s'. rewrite Hrun, He, Hs by discriminate.
    split; [reflexivity |]. rewrite Hs'. reflexivity.
Defined.

(** ** The life cycle, composed *)

(** X3.  Whatever the state [Close] is called in, the device it leaves
    reports closed and idle, refuses every guarded operation with
    [ErrDeviceClosed], and answers the probes with nil and the empty slice;
    [Ref] and [Unref] do nothing on it.  None of these calls reaches the
    native library. *)
Theorem after_Close_the_device_is_closed
    (newError : Z → option error) (lib : NativeLib) (s : State) (fuel : nat)
    (mode priority exposure brightness format width height fps : Z) :
  mu s = unlocked →
  ∃ s1,
    run lib Close s = Done None s1
    ∧ run lib IsClosed s1 = Done true s1
    ∧ run lib IsIdle s1 = Done true s1
    ∧ run lib (SetAEMode newError mode) s1 = Done (Some ErrDeviceClosed) s1
    ∧ run lib (SetAEPriority newError priority) s1 = Done (Some ErrDeviceClosed) s1
    ∧ run lib (SetExposureRelative newError exposure) s1 = Done (Some ErrDeviceClosed) s1
    ∧ run lib (SetBrightness newError brightness) s1 = Done (Some ErrDeviceClosed) s1
    ∧ run lib (GetStream newError format width height fps) s1
      = Done (None, Some ErrDeviceClosed) s1
    ∧ run lib ControlInterface_ s1 = Done None s1
    ∧ run lib (StreamInterfaces fuel) s1 = Done [] s1
    ∧ run lib Ref s1 = Done tt s1
    ∧ run lib Unref s1 = Done tt s1.
Proof.
  intros Hm. eexists. split; [now apply Close_run |].
  set (s1 := set_handle nil _).
  assert (Hc : handle (this s1) = nil) by reflexivity.
  assert (Hm1 : mu s1 = unlocked) by exact Hm.
  rewrite IsClosed_run, Hc by assumption.
  rewrite IsIdle_closed, SetAEMode_closed, SetAEPriority_closed,
    SetExposureRelative_closed, SetBrightness_closed, GetStream_closed,
    ControlInterface_closed, StreamInterfaces_closed, Ref_closed, Unref_closed
    by assumption.
  repeat split.
Qed.

Lemma after_Close_the_device_is_closed_witness :
  ∃ s1,
    run Camera.lib Close Camera.open_state = Done None s1
    ∧ run Camera.lib IsClosed s1 = Done true s1
    ∧ run Camera.lib (SetBrightness Camera.newError 100) s1
      = Done (Some ErrDeviceClosed) s1
    ∧ run Camera.lib (StreamInterfaces 8) s1 = Done [] s1.
Proof.
  destruct (after_Close_the_device_is_closed Camera.newError Camera.lib
              Camera.open_state 8 2 1 (-1) 100 7 640 480 30 eq_refl)
    as (s1 & H1 & H2 & _ & _ & _ & _ & H3 & _ & _ & H4 & _).
  exists s1. auto.
Defined.

(** X4.  A successful [Open] followed by [Close]: in between the device
    reports open, [Close] hands to [uvc_close] the very handle that
    [uvc_open] wrote, and afterwards the device is closed again, so that a
    further [Open] goes back to [uvc_open] instead of returning at once. *)
Theorem Open_then_Close_pairs_the_handle
    (newError : Z → option error) (lib : NativeLib) (s : State) :
  uvc_open_contract newError lib →
  mu s = unlocked →
  handle (this s) = nil →
  let r := (native_open lib (mem s) (dev (this s)) nil).1.1 in
  let h := (native_open lib (mem s) (dev (this s)) nil).1.2 in
  newError r = None →
  ∃ s1 s2 e s3,
    run lib (Open newError) s = Done None s1
    ∧ handle (this s1) = h
    ∧ run lib IsClosed s1 = Done false s1
    ∧ run lib Close s1 = Done None s2
    ∧ trace s2 = trace s ++ [C_uvc_open (dev (this s)); C_uvc_close h]
    ∧ run lib IsClosed s2 = Done true s2
    ∧ run lib (Open newError) s2 = Done e s3
    ∧ trace s3 = trace s2 ++ [C_uvc_open (dev (this s))].
Proof.
  intros Hct Hm Hc r h Hok.
  destruct (native_open lib (mem s) (dev (this s)) nil) as [[r0 h0] m0] eqn:Hn.
  simpl in r, h. subst r h.
  destruct (Hct _ _ _ _ _ _ Hn) as [Hh _]. specialize (Hh Hok).
  set (s1 := set_handle h0 (set_mem m0 (C_uvc_open (dev (this s))) s)).
  set (s2 := set_handle nil
               (set_mem (native_call lib (C_uvc_close h0) (mem s1)).2
                  (C_uvc_close h0) s1)).
  destruct (native_open lib (mem s2) (dev (this s2)) nil) as [[r3 h3] m3] eqn:Hn3.
  exists s1, s2, (newError r3),
    (set_handle h3 (set_mem m3 (C_uvc_open (dev (this s2))) s2)).
  split; [rewrite (Open_closed newError lib s r0 h0 m0) by assumption;
          now rewrite Hok |].
  split; [reflexivity |].
  split; [rewrite IsClosed_run by exact Hm; simpl;
          destruct h0; [reflexivity | now elim Hh] |].
  split; [rewrite Close_run by exact Hm; reflexivity |].
  split; [simpl; now rewrite <- app_assoc |].
  split; [rewrite IsClosed_run by exact Hm; reflexivity |].
  split; [apply Open_closed; [reflexivity | exact Hm | exact Hn3] |].
  reflexivity.
Qed.

Lemma Open_then_Close_pairs_the_handle_witness :
  ∃ s1 s2 e s3,
    run Camera.lib (Open Camera.newError) Camera.closed_state = Done None s1
    ∧ handle (this s1) = Some 10%positive
    ∧ run Camera.lib IsClosed s1 = Done false s1
    ∧ run Camera.lib Close s1 = Done None s2
    ∧ trace s2 = [C_uvc_open (Some 1%positive); C_uvc_close (Some 10%positive)]
    ∧ run Camera.lib IsClosed s2 = Done true s2
    ∧ run Camera.lib (Open Camera.newError) s2 = Done e s3
    ∧ trace s3 = trace s2 ++ [C_uvc_open (Some 1%positive)].
Proof.
  apply (Open_then_Close_pairs_the_handle Camera.newError Camera.lib Camera.closed_state
           Camera_open_contract); reflexivity.
Defined.

(** X5.  [IsIdle] answers true on a closed device; on an open one it
    answers whether the handle's list of streams is empty, and faults when
    the handle points at memory that is gone.  [IsClosed] answers whether
    the handle is nil.  Neither changes the state. *)
Theorem IsIdle_IsClosed_report (lib : NativeLib) (s : State) :
  mu s = unlocked →
  run lib IsClosed s = Done (is_nil (handle (this s))) s
  ∧ (handle (this s) = nil → run lib IsIdle s = Done true s)
  ∧ (∀ hn, deref (handles (mem s)) (handle (this s)) = Some hn →
           run lib IsIdle s = Done (is_nil (streams hn)) s)
  ∧ (handle (this s) ≠ nil →
     deref (handles (mem s)) (handle (this s)) = None →
     run lib IsIdle s = Fault).
Proof.
  intros Hm. split; [now apply IsClosed_run |].
  split; [intros Hc; now apply IsIdle_closed |].
  destruct (handle (this s)) as [a|] eqn:Hh; unfold deref.
  - split.
    + intros hn E. rewrite (IsIdle_opened lib s a Hm Hh), E. reflexivity.
    + intros _ E. rewrite (IsIdle_opened lib s a Hm Hh), E. reflexivity.
  - split; [discriminate | intros H; now elim H].
Qed.

Lemma IsIdle_IsClosed_report_witness :
  run Camera.lib IsClosed Camera.open_state = Done false Camera.open_state
  ∧ run Camera.lib IsIdle Camera.open_state = Done true Camera.open_state.
Proof.
  destruct (IsIdle_IsClosed_report Camera.lib Camera.open_state eq_refl)
    as (H1 & _ & H2 & _).
  split; [exact H1 |]. apply (H2 Camera.the_handle). reflexivity.
Defined.

(** ** The mutex, seen by one caller *)

Section OneCaller.

Variable lib : NativeLib.

Lemma guarded_run {R} (p : Prog R) :
  ∀ h s,
    guarded h p →
    mutex_of h HNone = Some (mu s) →
    run lib p s ≠ Blocked
    ∧ ∀ r s', run lib p s = Done r s' → mu s' = unlocked.
Proof.
  induction p as [r| |X e k IH]; intros h s Hg Hmu; simpl.
  - simpl in Hg. subst h. simpl in Hmu. inversion Hmu as [Hmu'].
    split; [discriminate |]. intros r0 s' H. inversion H; subst. auto.
  - split; discriminate.
  - destruct (do_eff lib e s) as [x s1| |] eqn:E.
    + destruct (thread_step_inv lib {| held := h; code := Vis e k |}
                  {| held := held_after e h; code := k x |} s s1 HNone Hg Hmu)
        as [Hg' Hmu'].
      { unfold thread_step. simpl. now rewrite E. }
      apply (IH x _ _ Hg' Hmu').
    + split; discriminate.
    + exfalso. destruct Hg as [Ha _].
      destruct s as [dv [rd wr] m tr].
      destruct e; simpl in *; subst;
        try destruct (native_open lib _ _ _) as [[? ?] ?];
        try destruct (native_call lib _ _) as [? ?];
        unfold read_mem in E; try destruct (deref _ _);
        try discriminate E;
        inversion Hmu; subst; discriminate E.
Qed.

Lemma reader_run {R} (p : Prog R) :
  ∀ s r s',
    guarded HRead p →
    no_acquire p →
    run lib p s = Done r s' →
    this s' = this s.
Proof.
  induction p as [r0| |X e k IH]; intros s r s' Hg Hn H; simpl in H.
  - now inversion H.
  - discriminate.
  - destruct Hg as [Ha Hk]. destruct Hn as [He Hnk].
    destruct (do_eff lib e s) as [x s1| |] eqn:E; try discriminate.
    assert (Hs1 : this s1 = this s).
    { destruct e; simpl in *; try discriminate Ha; try contradiction;
        try destruct (native_call lib _ _) as [? ?];
        unfold read_mem in E; try destruct (deref _ _);
        try destruct (readers (mu s)); try destruct (writer (mu s));
        try discriminate E; inversion E; subst; reflexivity. }
    rewrite <- Hs1.
    destruct e; simpl in *; try contradiction; try discriminate Ha;
      try (eapply IH; [apply Hk | apply Hnk | exact H]).
    destruct (guarded_outside_returns (k x) (Hk x) (Hnk x)) as [r1 Hr].
    rewrite Hr in H. now inversion H.
Qed.

End OneCaller.

Lemma method_returns_unlocked {R} (p : Prog R) :
  guarded HNone p → returns_unlocked p.
Proof.
  intros Hg lib s Hm. apply (guarded_run lib p HNone s Hg).
  simpl. now rewrite Hm.
Qed.

Lemma reader_keeps_device {R} (p : Prog R) :
  guarded HNone p → single_section HRead p → keeps_device p.
Proof.
  intros Hg Hs lib s r s' Hm H.
  destruct p as [r0| |X e k]; simpl in Hs; try contradiction.
  destruct Hs as [He Hk]. destruct Hg as [_ Hg].
  destruct e; simpl in He; try contradiction; try discriminate He.
  simpl in H. rewrite Hm in H. simpl in H.
  apply reader_run in H; [exact H | apply Hg | apply Hk].
Qed.

Lemma GetStream_guarded (newError : Z → option error) (format width height fps : Z) :
  guarded HNone (GetStream newError format width height fps)
  ∧ single_section HRead (GetStream newError format width height fps).
Proof.
  unfold GetStream. discipline.
  - intros r. destruct (newError (status r)); simpl; repeat split; discriminate.
  - intros r. destruct (newError (status r)); simpl; auto.
Qed.

(** X6.  Every method of [Device] that takes the mutex, called with the
    mutex free, goes through without waiting and gives the mutex back on
    every path on which it returns, the early returns and the error returns
    included. *)
Theorem methods_release_the_mutex (newError : Z → option error) :
  returns_unlocked (Open newError)
  ∧ returns_unlocked Close
  ∧ (∀ mode, returns_unlocked (SetAEMode newError mode))
  ∧ (∀ priority, returns_unlocked (SetAEPriority newError priority))
  ∧ (∀ exposure, returns_unlocked (SetExposureRelative newError exposure))
  ∧ (∀ brightness, returns_unlocked (SetBrightness newError brightness))
  ∧ (∀ format width height fps,
       returns_unlocked (GetStream newError format width height fps))
  ∧ returns_unlocked ControlInterface_
  ∧ (∀ fuel, returns_unlocked (StreamInterfaces fuel))
  ∧ returns_unlocked Ref
  ∧ returns_unlocked Unref
  ∧ returns_unlocked IsIdle
  ∧ returns_unlocked IsClosed.
Proof.
  pose proof (Device_methods_guarded newError) as H.
  destruct (H 0) as ((Ho & _) & _ & _ & _ & _ & _ & (Hr & _) & (Hu & _)
                     & (Hi & _) & (Hc & _)).
  split; [now apply method_returns_unlocked |].
  split; [apply method_returns_unlocked, Close_guarded |].
  split; [intros x; apply method_returns_unlocked, (H x) |].
  split; [intros x; apply method_returns_unlocked, (H x) |].
  split; [intros x; apply method_returns_unlocked, (H x) |].
  split; [intros x; apply method_returns_unlocked, (H x) |].
  split; [intros f w h fps; apply method_returns_unlocked, GetStream_guarded |].
  split; [apply method_returns_unlocked, ControlInterface_guarded |].
  split; [intros fuel; apply method_returns_unlocked, StreamInterfaces_guarded |].
  repeat (split; [now apply method_returns_unlocked |]).
  now apply method_returns_unlocked.
Qed.

(** [SetBrightness] on the open camera returns with the mutex free. *)
Lemma methods_release_the_mutex_witness :
  run Camera.lib (SetBrightness Camera.newError 100) Camera.open_state ≠ Blocked
  ∧ ∃ r s', run Camera.lib (SetBrightness Camera.newError 100) Camera.open_state
            = Done r s' ∧ mu s' = unlocked.
Proof.
  destruct (methods_release_the_mutex Camera.newError) as (_ & _ & _ & _ & _ & H & _).
  destruct (H 100 Camera.lib Camera.open_state eq_refl) as [Hb Hd].
  split; [exact Hb |].
  pose (o := run Camera.lib (SetBrightness Camera.newError 100) Camera.open_state).
  assert (E : run Camera.lib (SetBrightness Camera.newError 100) Camera.open_state = o)
    by reflexivity.
  vm_compute in o. subst o.
  do 2 eexists. split; [exact E |]. eapply Hd. exact E.
Defined.

(** X7.  The open or closed state of the device changes in [Open] and
    [Close] only: every other method that returns leaves both fields of the
    device, the reference and the handle, as they were. *)
Theorem only_Open_and_Close_change_the_device (newError : Z → option error) :
  (∀ mode, keeps_device (SetAEMode newError mode))
  ∧ (∀ priority, keeps_device (SetAEPriority newError priority))
  ∧ (∀ exposure, keeps_device (SetExposureRelative newError exposure))
  ∧ (∀ brightness, keeps_device (SetBrightness newError brightness))
  ∧ (∀ format width height fps,
       keeps_device (GetStream newError format width height fps))
  ∧ keeps_device ControlInterface_
  ∧ (∀ fuel, keeps_device (StreamInterfaces fuel))
  ∧ keeps_device Ref
  ∧ keeps_device Unref
  ∧ keeps_device IsIdle
  ∧ keeps_device IsClosed.
Proof.
  pose proof (Device_methods_guarded newError) as H.
  destruct (H 0) as (_ & _ & _ & _ & _ & _ & Hr & Hu & Hi & Hc).
  split; [intros x; apply reader_keeps_device; apply (H x) |].
  split; [intros x; apply reader_keeps_device; apply (H x) |].
  split; [intros x; apply reader_keeps_device; apply (H x) |].
  split; [intros x; apply reader_keeps_device; apply (H x) |].
  split; [intros f w h fps; apply reader_keeps_device; apply GetStream_guarded |].
  split; [apply reader_keeps_device; apply ControlInterface_guarded |].
  split; [intros fuel; apply reader_keeps_device; apply StreamInterfaces_guarded |].
  split; [apply reader_keeps_device; apply Hr |].
  split; [apply reader_keeps_device; apply Hu |].
  split; [apply reader_keeps_device; apply Hi |].
  apply reader_keeps_device; apply Hc.
Qed.

Lemma only_Open_and_Close_change_the_device_witness :
  ∃ r s', run Camera.lib (GetStream Camera.newError 7 640 480 30) Camera.open_state
          = Done r s' ∧ this s' = this Camera.open_state.
Proof.
  destruct (only_Open_and_Close_change_the_device Camera.newError)
    as (_ & _ & _ & _ & H & _).
  pose (o := run Camera.lib (GetStream Camera.newError 7 640 480 30) Camera.open_state).
  assert (E : run Camera.lib (GetStream Camera.newError 7 640 480 30) Camera.open_state
              = o) by reflexivity.
  vm_compute in o. subst o.
  do 2 eexists. split; [exact E |].
  eapply (H 7 640 480 30 Camera.lib Camera.open_state); [reflexivity | exact E].
Defined.

(** ** The walks of the catalog *)

Lemma linked_unique {N} (heap : gmap addr N) (next : N → ptr) (p : ptr)
    (l1 l2 : list (addr * N)) :
  linked heap next p l1 → linked heap next p l2 → l1 = l2.
Proof.
  intros H1. revert l2. induction H1 as [|a n l Ha Hl IH]; intros l2 H2.
  - now inversion H2.
  - inversion H2 as [|a' n' l' Ha' Hl']; subst.
    rewrite Ha in Ha'. inversion Ha'; subst. f_equal. now apply IH.
Qed.

Lemma linked_suffix {N} (heap : gmap addr N) (next : N → ptr) (p : ptr)
    (l : list (addr * N)) (a : addr) :
  linked heap next p l →
  In a (map fst l) →
  ∃ l1 l2, l = l1 ++ l2 ∧ linked heap next (Some a) l2.
Proof.
  induction 1 as [|a0 n l Ha Hl IH]; simpl; [contradiction |].
  intros [-> | Hin].
  - exists [], ((a, n) :: l). split; [reflexivity | now constructor].
  - destruct (IH Hin) as (l1 & l2 & -> & H2).
    exists ((a0, n) :: l1), l2. split; [reflexivity | exact H2].
Qed.

(** A nil-terminated native list visits no node twice. *)
Lemma linked_NoDup {N} (heap : gmap addr N) (next : N → ptr) (p : ptr)
    (l : list (addr * N)) :
  linked heap next p l → List.NoDup (map fst l).
Proof.
  induction 1 as [|a n l Ha Hl IH]; simpl; constructor; [| exact IH].
  intros Hin.
  destruct (linked_suffix heap next _ l a Hl Hin) as (l1 & l2 & E & H2).
  assert (Hl' : linked heap next (Some a) ((a, n) :: l)) by now constructor.
  pose proof (linked_unique heap next _ _ _ H2 Hl') as E2.
  apply (f_equal (@length _)) in E. apply (f_equal (@length _)) in E2.
  rewrite length_app in E. simpl in E2. lia.
Qed.

Section Walks.

Variable lib : NativeLib.

Lemma StreamInterfaces_loop_inv (s : State) (fuel : nat) :
  ∀ p acc l s',
    run lib (StreamInterfaces_loop fuel p acc) s = Done l s' →
    s' = s
    ∧ ∃ nodes, linked (stream_ifs (mem s)) si_next p nodes
               ∧ (length nodes ≤ fuel)%nat
               ∧ l = acc ++ map (fun an => mkStreamInterface (Some an.1) an.2) nodes.
Proof.
  induction fuel as [|fuel IH]; intros [a|] acc l s' H; simpl in H;
    try discriminate;
    try (inversion H; subst; split; [reflexivity |];
         exists []; simpl; rewrite app_nil_r;
         repeat split; [constructor | lia]).
  unfold read_mem in H. simpl in H.
  destruct (stream_ifs (mem s) !! a) as [n|] eqn:E; [| discriminate].
  apply IH in H. destruct H as (-> & nodes & Hl & Hf & ->).
  split; [reflexivity |].
  exists ((a, n) :: nodes). simpl. rewrite <- app_assoc.
  repeat split; [now constructor | lia].
Qed.

Lemma FormatDescriptors_loop_inv (s : State) (fuel : nat) :
  ∀ p acc l s',
    run lib (FormatDescriptors_loop fuel p acc) s = Done l s' →
    s' = s
    ∧ ∃ nodes, linked (format_nodes (mem s)) fmt_next p nodes
               ∧ (length nodes ≤ fuel)%nat
               ∧ l = acc ++ map (fun an => mkFormatDescriptor (Some an.1) an.2) nodes.
Proof.
  induction fuel as [|fuel IH]; intros [a|] acc l s' H; simpl in H;
    try discriminate;
    try (inversion H; subst; split; [reflexivity |];
         exists []; simpl; rewrite app_nil_r;
         repeat split; [constructor | lia]).
  unfold read_mem in H. simpl in H.
  destruct (format_nodes (mem s) !! a) as [n|] eqn:E; [| discriminate].
  apply IH in H. destruct H as (-> & nodes & Hl & Hf & ->).
  split; [reflexivity |].
  exists ((a, n) :: nodes). simpl. rewrite <- app_assoc.
  repeat split; [now constructor | lia].
Qed.

Lemma FrameDescriptors_loop_inv (s : State) (fuel : nat) :
  ∀ p acc l s',
    run lib (FrameDescriptors_loop fuel p acc) s = Done l s' →
    s' = s
    ∧ ∃ nodes, linked (frame_nodes (mem s)) frm_next p nodes
               ∧ (length nodes ≤ fuel)%nat
               ∧ l = acc ++ map (fun an => mkFrameDescriptor (Some an.1) an.2) nodes.
Proof.
  induction fuel as [|fuel IH]; intros [a|] acc l s' H; simpl in H;
    try discriminate;
    try (inversion H; subst; split; [reflexivity |];
         exists []; simpl; rewrite app_nil_r;
         repeat split; [constructor | lia]).
  unfold read_mem in H. simpl in H.
  destruct (frame_nodes (mem s) !! a) as [n|] eqn:E; [| discriminate].
  apply IH in H. destruct H as (-> & nodes & Hl & Hf & ->).
  split; [reflexivity |].
  exists ((a, n) :: nodes). simpl. rewrite <- app_assoc.
  repeat split; [now constructor | lia].
Qed.

Lemma StreamInterfaces_inv (s : State) (a : addr) (hn : uvc_device_handle)
    (fuel : nat) (l : list StreamInterface) (s' : State) :
  mu s = unlocked →
  handle (this s) = Some a →
  handles (mem s) !! a = Some hn →
  run lib (StreamInterfaces fuel) s = Done l s' →
  s' = s
  ∧ ∃ nodes, linked (stream_ifs (mem s)) si_next (info_stream_ifs hn) nodes
             ∧ (length nodes ≤ fuel)%nat
             ∧ l = map (fun an => mkStreamInterface (Some an.1) an.2) nodes.
Proof.
  intros Hm Hh Ha H. open_state s. inversion Hm; subst.
  unfold StreamInterfaces in H. revert H. run_method.
  unfold read_mem. simpl. rewrite Ha. rewrite run_bind.
  destruct (run lib (StreamInterfaces_loop fuel (info_stream_ifs hn) []) _)
    as [l0 s0| | |] eqn:E; try discriminate.
  apply StreamInterfaces_loop_inv in E. destruct E as (-> & nodes & Hl & Hf & ->).
  simpl. intros H. inversion H; subst. split; [reflexivity |].
  exists nodes. auto.
Qed.

End Walks.

Lemma NoDup_map_Some_fst {A B} (l : list (A * B)) :
  List.NoDup (map fst l) → List.NoDup (map (fun x => Some x.1) l).
Proof.
  induction l as [|x l IH]; simpl; intros H; inversion H as [|y l' Hx Hl]; subst;
    constructor; [| now apply IH].
  rewrite in_map_iff. intros (y & E & Hy). inversion E as [E']. apply Hx.
  rewrite <- E'. now apply in_map.
Qed.

(** X8.  On an open device [StreamInterfaces] returns exactly when the
    native interface list ends in nil (a list that runs into a cycle or
    into freed memory gives no result): it then returns the nodes of the
    list in order, each once, with the state as it was. *)
Theorem StreamInterfaces_returns_the_list
    (lib : NativeLib) (s : State) (a : addr) (hn : uvc_device_handle)
    (fuel : nat) (l : list StreamInterface) (s' : State) :
  mu s = unlocked →
  handle (this s) = Some a →
  handles (mem s) !! a = Some hn →
  (run lib (StreamInterfaces fuel) s = Done l s'
   ↔ s' = s
     ∧ ∃ nodes, linked (stream_ifs (mem s)) si_next (info_stream_ifs hn) nodes
                ∧ (length nodes ≤ fuel)%nat
                ∧ l = map (fun an => mkStreamInterface (Some an.1) an.2) nodes)
  ∧ (run lib (StreamInterfaces fuel) s = Done l s' →
     List.NoDup (map si_itf l) ∧ ¬ In nil (map si_itf l)).
Proof.
  intros Hm Hh Ha. split; [split |].
  - now apply StreamInterfaces_inv with (a := a).
  - intros (-> & nodes & Hl & Hf & ->).
    now apply StreamInterfaces_run with (a := a) (hn := hn).
  - intros H.
    destruct (StreamInterfaces_inv lib s a hn fuel l s' Hm Hh Ha H)
      as (_ & nodes & Hl & _ & ->).
    rewrite map_map. simpl.
    split.
    + apply NoDup_map_Some_fst. eapply linked_NoDup. exact Hl.
    + rewrite in_map_iff. intros (x & E & _). discriminate.
Qed.

Lemma StreamInterfaces_returns_the_list_witness :
  List.NoDup (map si_itf [mkStreamInterface (Some 20%positive) Camera.itf1;
                          mkStreamInterface (Some 21%positive) Camera.itf2])
  ∧ ¬ In nil (map si_itf [mkStreamInterface (Some 20%positive) Camera.itf1;
                          mkStreamInterface (Some 21%positive) Camera.itf2]).
Proof.
  destruct (StreamInterfaces_returns_the_list Camera.lib Camera.open_state
              10%positive Camera.the_handle 8
              [mkStreamInterface (Some 20%positive) Camera.itf1;
               mkStreamInterface (Some 21%positive) Camera.itf2]
              Camera.open_state eq_refl eq_refl eq_refl) as [[_ Hrun] Hnd].
  apply Hnd. apply Hrun. split; [reflexivity |].
  exists [(20%positive, Camera.itf1); (21%positive, Camera.itf2)].
  split; [exact Camera_stream_list |]. split; [simpl; lia | reflexivity].
Defined.

(** X17.  On a native list that closes on itself the walk never returns,
    however many iterations it is given. *)
Theorem StreamInterfaces_cycle_never_returns
    (lib : NativeLib) (s : State) (a b : addr) (hn : uvc_device_handle)
    (n : uvc_streaming_interface) (fuel : nat) (l : list StreamInterface) (s' : State) :
  mu s = unlocked →
  handle (this s) = Some a →
  handles (mem s) !! a = Some hn →
  info_stream_ifs hn = Some b →
  stream_ifs (mem s) !! b = Some n →
  si_next n = Some b →
  run lib (StreamInterfaces fuel) s ≠ Done l s'.
Proof.
  intros Hm Hh Ha Hb Hn Hnext H.
  destruct (StreamInterfaces_inv lib s a hn fuel l s' Hm Hh Ha H)
    as (_ & nodes & Hl & _ & _).
  rewrite Hb in Hl. inversion Hl as [|b' n' l' Hn' Hl' E1]; subst.
  rewrite Hn in Hn'. inversion Hn'; subst n'. rewrite Hnext in Hl'.
  assert (Hl2 : linked (stream_ifs (mem s)) si_next (Some b) ((b, n) :: l')).
  { constructor; [exact Hn | now rewrite Hnext]. }
  pose proof (linked_unique _ _ _ _ _ Hl' Hl2) as E.
  apply (f_equal (@length _)) in E. simpl in E. lia.
Qed.

Lemma StreamInterfaces_cycle_never_returns_witness :
  ¬ ∃ l s', run Camera.lib (StreamInterfaces 1000) Looped.state = Done l s'.
Proof.
  intros (l & s' & H).
  apply (StreamInterfaces_cycle_never_returns Camera.lib Looped.state
           10%positive 20%positive Camera.the_handle Looped.itf 1000 l s');
    try reflexivity.
  exact H.
Defined.

(** X9.  [FrameDescriptors] returns one descriptor per node of the native
    frame list, in order; each holds the address of its node and copies of
    the node's fourteen scalar fields, and its [Intervals] is nil. *)
Theorem FrameDescriptors_copy_the_frames
    (lib : NativeLib) (s : State) (fuel : nat) (d : FormatDescriptor)
    (fmt : uvc_format_desc) (l : list (addr * uvc_frame_desc)) :
  deref (format_nodes (mem s)) (fd_desc d) = Some fmt →
  linked (frame_nodes (mem s)) frm_next (frame_descs fmt) l →
  (length l ≤ fuel)%nat →
  ∃ descs,
    run lib (FrameDescriptors fuel d) s = Done descs s
    ∧ Forall2 (fun fr an =>
                 fr_desc fr = Some an.1
                 ∧ frame_nodes (mem s) !! an.1 = Some an.2
                 ∧ fr_Subtype fr = frm_bDescriptorSubtype an.2
                 ∧ fr_FrameIndex fr = uint8 (bFrameIndex an.2)
                 ∧ fr_Capabilities fr = uint8 (bmCapabilities an.2)
                 ∧ fr_Width fr = uint16 (wWidth an.2)
                 ∧ fr_Height fr = uint16 (wHeight an.2)
                 ∧ fr_MinBitRate fr = uint32 (dwMinBitRate an.2)
                 ∧ fr_MaxBitRate fr = uint32 (dwMaxBitRate an.2)
                 ∧ fr_MaxVideoFrameBufferSize fr
                   = uint32 (dwMaxVideoFrameBufferSize an.2)
                 ∧ fr_DefaultFrameInterval fr = uint32 (dwDefaultFrameInterval an.2)
                 ∧ fr_MinFrameInterval fr = uint32 (dwMinFrameInterval an.2)
                 ∧ fr_MaxFrameInterval fr = uint32 (dwMaxFrameInterval an.2)
                 ∧ fr_FrameIntervalStep fr = uint32 (dwFrameIntervalStep an.2)
                 ∧ fr_FrameIntervalType fr = uint8 (bFrameIntervalType an.2)
                 ∧ fr_BytesPerLine fr = uint32 (dwBytesPerLine an.2)
                 ∧ fr_Intervals fr = [])
        descs l.
Proof.
  intros Hd Hl Hf. eexists. split.
  - eapply FrameDescriptors_run; eassumption.
  - eapply linked_Forall2; [exact Hl |].
    intros a n Ha. simpl. repeat split. exact Ha.
Qed.

Lemma FrameDescriptors_copy_the_frames_witness :
  ∃ descs,
    run Camera.lib (FrameDescriptors 8 (mkFormatDescriptor (Some 30%positive) Camera.yuy2))
      Camera.open_state = Done descs Camera.open_state
    ∧ map fr_Width descs = [640; 320]
    ∧ map fr_Height descs = [480; 240].
Proof.
  destruct (FrameDescriptors_copy_the_frames Camera.lib Camera.open_state 8
              (mkFormatDescriptor (Some 30%positive) Camera.yuy2) Camera.yuy2
              [(40%positive, Camera.vga); (41%positive, Camera.qvga)])
    as (descs & Hrun & HF).
  - reflexivity.
  - exact Camera_frame_list.
  - simpl. lia.
  - exists descs. split; [exact Hrun |].
    inversion HF as [|d1 n1 l1 r1 H1 HF1]; subst.
    inversion HF1 as [|d2 n2 l2 r2 H2 HF2]; subst.
    inversion HF2; subst.
    destruct H1 as (_ & _ & _ & _ & _ & W1 & Hh1 & _).
    destruct H2 as (_ & _ & _ & _ & _ & W2 & Hh2 & _).
    simpl. rewrite W1, W2, Hh1, Hh2. split; reflexivity.
Defined.

(** X10.  The four catalog queries only read: whenever one of them
    returns, from any state, the device, the mutex, native memory and the
    trace of native calls are exactly as before. *)
Theorem catalog_queries_only_read (lib : NativeLib) (s : State) :
  (∀ ci s', run lib ControlInterface_ s = Done ci s' → s' = s)
  ∧ (∀ fuel l s', run lib (StreamInterfaces fuel) s = Done l s' → s' = s)
  ∧ (∀ fuel i l s', run lib (FormatDescriptors fuel i) s = Done l s' → s' = s)
  ∧ (∀ fuel d l s', run lib (FrameDescriptors fuel d) s = Done l s' → s' = s).
Proof.
  split; [| split; [| split]].
  - intros ci s'. destruct s as [[d h] [rd wr] m tr].
    unfold ControlInterface_. run_method.
    destruct wr; [discriminate |]. simpl.
    destruct h as [a|]; simpl.
    + unfold read_mem. simpl. destruct (handles m !! a); [| discriminate].
      simpl. intros H. now inversion H.
    + intros H. now inversion H.
  - intros fuel l s'. destruct s as [[d h] [rd wr] m tr].
    unfold StreamInterfaces. run_method.
    destruct wr; [discriminate |]. simpl.
    destruct h as [a|]; simpl.
    + unfold read_mem. simpl. destruct (handles m !! a) as [hn|]; [| discriminate].
      rewrite run_bind.
      destruct (run lib (StreamInterfaces_loop fuel (info_stream_ifs hn) []) _)
        as [l0 s0| | |] eqn:E; try discriminate.
      apply StreamInterfaces_loop_inv in E. destruct E as (-> & _).
      simpl. intros H. now inversion H.
    + intros H. now inversion H.
  - intros fuel i l s'. unfold FormatDescriptors.
    destruct (si_itf i) as [a|]; simpl.
    + unfold read_mem. simpl. destruct (stream_ifs (mem s) !! a); [| discriminate].
      intros H. apply FormatDescriptors_loop_inv in H. now destruct H.
    + intros H. now inversion H.
  - intros fuel d l s'. unfold FrameDescriptors.
    destruct (fd_desc d) as [a|]; simpl.
    + unfold read_mem. simpl. destruct (format_nodes (mem s) !! a); [| discriminate].
      intros H. apply FrameDescriptors_loop_inv in H. now destruct H.
    + intros H. now inversion H.
Qed.

(** ** Any two calls on one device *)

Lemma DeviceMethod_guarded (newError : Z → option error) (m : Held) {R} (p : Prog R) :
  DeviceMethod newError m p → guarded HNone p ∧ single_section m p.
Proof.
  pose proof (Device_methods_guarded newError) as H.
  destruct (H 0) as (Ho & _ & _ & _ & _ & _ & Hr & Hu & Hi & Hc).
  intros [ | |x|x|x|x| |fuel|f w h fps| | | | ]; try assumption.
  - apply Close_guarded.
  - apply (H x).
  - apply (H x).
  - apply (H x).
  - apply (H x).
  - apply ControlInterface_guarded.
  - apply StreamInterfaces_guarded.
  - apply GetStream_guarded.
Qed.

Lemma blocked_is_acquire (lib : NativeLib) {X} (e : Eff X) (s : State) :
  do_eff lib e s = EBlocked →
  match e with ELock | ERLock => True | _ => False end.
Proof.
  destruct e; simpl; auto;
    try destruct (native_open lib _ _ _) as [[? ?] ?];
    try destruct (native_call lib _ _) as [? ?];
    unfold read_mem; try destruct (deref _ _);
    try destruct (writer (mu s)); try destruct (readers (mu s)); discriminate.
Qed.

Section TwoCalls.

Variable newError : Z → option error.
Variable lib : NativeLib.
Context {RA RB : Type}.
Variables (ma mb : Held) (pa : Prog RA) (pb : Prog RB).
Hypothesis method_a : DeviceMethod newError ma pa.
Hypothesis method_b : DeviceMethod newError mb pb.

Variable s0 : State.
Variable c : Sys RA RB.
Hypothesis free : mu s0 = unlocked.
Hypothesis reached : reachable lib (start pa pb s0) c.

Lemma two_calls_position :
  sys_inv c ∧ one_section ma pa (thA c) ∧ one_section mb pb (thB c).
Proof.
  destruct (DeviceMethod_guarded newError ma pa method_a) as [Hga Hsa].
  destruct (DeviceMethod_guarded newError mb pb method_b) as [Hgb Hsb].
  eapply reachable_inv; eauto.
Qed.

(** The mutex is as the two calls hold it: a call inside [Open] or [Close]
    is alone inside. *)
Lemma writer_is_alone :
  mutex_of (held (thA c)) (held (thB c)) = Some (mu (shared c))
  ∧ (held (thA c) = HWrite → held (thB c) = HNone)
  ∧ (held (thB c) = HWrite → held (thA c) = HNone).
Proof.
  destruct two_calls_position as ((_ & _ & Hmu) & _).
  split; [exact Hmu |].
  destruct (held (thA c)), (held (thB c)); simpl in Hmu;
    split; intros; congruence.
Qed.

(** A thread that waits is at the start of its call, and the other is
    inside its own. *)
Lemma waiting_means_other_inside {R1 R2}
    (t1 : Thread R1) (t2 : Thread R2) (s : State) :
  guarded (held t1) (code t1) →
  guarded (held t2) (code t2) →
  (held t2 = HNone ∨ no_acquire (code t2)) →
  mutex_of (held t1) (held t2) = Some (mu s) →
  thread_step lib t1 s = TBlocked →
  held t2 ≠ HNone ∧ thread_step lib t2 s ≠ TBlocked
  ∧ ∀ r, thread_step lib t2 s ≠ TFinished r.
Proof.
  destruct t1 as [h1 c1], t2 as [h2 c2]. unfold thread_step. simpl.
  intros Hg1 Hg2 Hin Hmu Hb.
  destruct c1 as [r| |X e k]; try discriminate.
  destruct (do_eff lib e s) as [x s1| |] eqn:E; try discriminate.
  pose proof (blocked_is_acquire lib e s E) as Hacq.
  destruct Hg1 as [Ha _].
  assert (h1 = HNone) as -> by (destruct e; simpl in *; try contradiction; assumption).
  assert (Hh2 : h2 ≠ HNone).
  { intros ->. simpl in Hmu. inversion Hmu as [Hmu'].
    destruct e; simpl in *; try contradiction; rewrite <- Hmu' in E;
      discriminate E. }
  split; [exact Hh2 |].
  destruct Hin as [Hin | Hin]; [contradiction |].
  destruct c2 as [r| |X2 e2 k2]; simpl in *.
  - contradiction.
  - split; [discriminate | intros r; discriminate].
  - destruct Hin as [He2 _].
    destruct (do_eff lib e2 s) as [x2 s2| |] eqn:E2;
      (split; [try discriminate | intros r; discriminate]).
    apply blocked_is_acquire in E2. destruct e2; contradiction.
Qed.

(** No deadlock: when one call waits for the mutex the other is inside
    its critical section and is not waiting nor done. *)
Lemma no_deadlock :
  (thread_step lib (thA c) (shared c) = TBlocked →
   held (thB c) ≠ HNone
   ∧ thread_step lib (thB c) (shared c) ≠ TBlocked
   ∧ ∀ r, thread_step lib (thB c) (shared c) ≠ TFinished r)
  ∧ (thread_step lib (thB c) (shared c) = TBlocked →
     held (thA c) ≠ HNone
     ∧ thread_step lib (thA c) (shared c) ≠ TBlocked
     ∧ ∀ r, thread_step lib (thA c) (shared c) ≠ TFinished r).
Proof.
  destruct two_calls_position as ((Hga & Hgb & Hmu) & Ha & Hb).
  assert (Hina : held (thA c) = HNone ∨ no_acquire (code (thA c))).
  { destruct Ha as [[H _] | [[_ H] | [H _]]]; auto. }
  assert (Hinb : held (thB c) = HNone ∨ no_acquire (code (thB c))).
  { destruct Hb as [[H _] | [[_ H] | [H _]]]; auto. }
  split; intros Hw.
  - apply (waiting_means_other_inside (thA c) (thB c) (shared c)); auto.
  - rewrite mutex_of_comm in Hmu.
    apply (waiting_means_other_inside (thB c) (thA c) (shared c)); auto.
Qed.

End TwoCalls.

(** X11.  What holds of [StreamInterfaces] next to [Close] holds of every
    method that takes the read lock, the setters and [GetStream] among
    them: from its first effect to its return the call holds the read lock,
    and while it does a concurrent [Close] holds nothing, cannot take a
    step, and the handle field stays as it is.  The handle a native setter
    or negotiation works on is therefore not closed under it. *)
Theorem read_locked_calls_exclude_Close
    (newError : Z → option error) (lib : NativeLib) {R} (q : Prog R) :
  DeviceMethod newError HRead q →
  lock_spans lib q
  ∧ ∀ s0 c,
      mu s0 = unlocked →
      reachable lib (start q Close s0) c →
      held (thA c) = HRead →
      held (thB c) = HNone
      ∧ (∀ t s', thread_step lib (thB c) (shared c) ≠ TNext t s')
      ∧ (∀ c', sys_step lib c c' →
               handle (this (shared c')) = handle (this (shared c))).
Proof.
  intros Hq. destruct (DeviceMethod_guarded newError HRead q Hq) as [Hg Hs].
  split.
  - intros s0 c Hm Hr. now apply (query_holds_read_lock lib q Hg Hs s0).
  - intros s0 c Hm Hr. now apply (Close_waits_for_query lib q Hg Hs s0).
Qed.

Lemma GetStream_in_flight :
  match exec Camera.lib [true; true]
          (start (GetStream Camera.newError 7 640 480 30) Close Camera.open_state) with
  | Some c => held (thA c) = HRead
  | None => False
  end.
Proof. vm_compute. reflexivity. Qed.

Lemma read_locked_calls_exclude_Close_witness :
  ∃ c, exec Camera.lib [true; true]
         (start (GetStream Camera.newError 7 640 480 30) Close Camera.open_state)
       = Some c
       ∧ held (thB c) = HNone
       ∧ ∀ t s', thread_step Camera.lib (thB c) (shared c) ≠ TNext t s'.
Proof.
  assert (H := GetStream_in_flight).
  destruct (exec Camera.lib [true; true]
              (start (GetStream Camera.newError 7 640 480 30) Close Camera.open_state))
    as [c|] eqn:E; [| contradiction].
  destruct (read_locked_calls_exclude_Close Camera.newError Camera.lib
              (GetStream Camera.newError 7 640 480 30)
              (m_GetStream Camera.newError 7 640 480 30)) as [_ H2].
  assert (Hr := exec_reachable Camera.lib _ _ _ E).
  destruct (H2 Camera.open_state c eq_refl Hr H) as (Hb & Hw & _).
  exists c. split; [reflexivity |]. split; assumption.
Defined.

(** X12.  For any two calls of methods of [Device] running on one device,
    in any interleaving: the mutex counts exactly what the two calls hold,
    and a call that is inside [Open] or [Close] is alone inside. *)
Theorem a_writer_is_alone_inside
    (newError : Z → option error) (lib : NativeLib) {RA RB}
    (ma mb : Held) (pa : Prog RA) (pb : Prog RB) (s0 : State) (c : Sys RA RB) :
  DeviceMethod newError ma pa →
  DeviceMethod newError mb pb →
  mu s0 = unlocked →
  reachable lib (start pa pb s0) c →
  mutex_of (held (thA c)) (held (thB c)) = Some (mu (shared c))
  ∧ (held (thA c) = HWrite → held (thB c) = HNone)
  ∧ (held (thB c) = HWrite → held (thA c) = HNone).
Proof.
  intros Ha Hb Hm Hr. now apply (writer_is_alone newError lib ma mb pa pb Ha Hb s0).
Qed.

Lemma Open_in_flight :
  match exec Camera.lib [true; true]
          (start (Open Camera.newError) Close Camera.closed_state) with
  | Some c =>
      held (thA c) = HWrite
      ∧ thread_step Camera.lib (thB c) (shared c) = TBlocked
  | None => False
  end.
Proof. vm_compute. split; reflexivity. Qed.

Lemma a_writer_is_alone_inside_witness :
  ∃ c, exec Camera.lib [true; true]
         (start (Open Camera.newError) Close Camera.closed_state) = Some c
       ∧ held (thA c) = HWrite
       ∧ held (thB c) = HNone
       ∧ mu (shared c) = {| readers := 0; writer := true |}.
Proof.
  assert (H := Open_in_flight).
  destruct (exec Camera.lib [true; true]
              (start (Open Camera.newError) Close Camera.closed_state))
    as [c|] eqn:E; [| contradiction].
  destruct H as [Hw _].
  assert (Hr := exec_reachable Camera.lib _ _ _ E).
  destruct (a_writer_is_alone_inside Camera.newError Camera.lib HWrite HWrite
              (Open Camera.newError) Close Camera.closed_state c
              (m_Open _) (m_Close _) eq_refl Hr) as (Hmu & Hab & _).
  exists c. split; [reflexivity |]. split; [exact Hw |].
  split; [exact (Hab Hw) |].
  rewrite Hw, (Hab Hw) in Hmu. simpl in Hmu. now inversion Hmu.
Defined.

(** X13.  Two calls on one device never wait for each other: whenever one
    waits for the mutex, the other is inside its critical section, is not
    waiting, and has not returned. *)
Theorem two_calls_do_not_deadlock
    (newError : Z → option error) (lib : NativeLib) {RA RB}
    (ma mb : Held) (pa : Prog RA) (pb : Prog RB) (s0 : State) (c : Sys RA RB) :
  DeviceMethod newError ma pa →
  DeviceMethod newError mb pb →
  mu s0 = unlocked →
  reachable lib (start pa pb s0) c →
  (thread_step lib (thA c) (shared c) = TBlocked →
   held (thB c) ≠ HNone
   ∧ thread_step lib (thB c) (shared c) ≠ TBlocked
   ∧ ∀ r, thread_step lib (thB c) (shared c) ≠ TFinished r)
  ∧ (thread_step lib (thB c) (shared c) = TBlocked →
     held (thA c) ≠ HNone
     ∧ thread_step lib (thA c) (shared c) ≠ TBlocked
     ∧ ∀ r, thread_step lib (thA c) (shared c) ≠ TFinished r).
Proof.
  intros Ha Hb Hm Hr. now apply (no_deadlock newError lib ma mb pa pb Ha Hb s0).
Qed.

Lemma two_calls_do_not_deadlock_witness :
  ∃ c, exec Camera.lib [true; true]
         (start (Open Camera.newError) Close Camera.closed_state) = Some c
       ∧ thread_step Camera.lib (thB c) (shared c) = TBlocked
       ∧ held (thA c) ≠ HNone
       ∧ thread_step Camera.lib (thA c) (shared c) ≠ TBlocked.
Proof.
  assert (H := Open_in_flight).
  destruct (exec Camera.lib [true; true]
              (start (Open Camera.newError) Close Camera.closed_state))
    as [c|] eqn:E; [| contradiction].
  destruct H as [_ Hb].
  assert (Hr := exec_reachable Camera.lib _ _ _ E).
  destruct (two_calls_do_not_deadlock Camera.newError Camera.lib HWrite HWrite
              (Open Camera.newError) Close Camera.closed_state c
              (m_Open _) (m_Close _) eq_refl Hr) as (_ & H2).
  destruct (H2 Hb) as (Hh & Hnb & _).
  exists c. split; [reflexivity |]. auto.
Defined.

(** ** [Descriptor] *)

Lemma CameraInfo_allocates_and_frees :
  allocates_and_frees Camera.newError CameraInfo.lib.
Proof.
  split.
  - intros m d r desc m' H. simpl in H.
    destruct d as [[?|?|]|]; inversion H; subst; simpl; try reflexivity.
    exists (CameraInfo.free_address m), CameraInfo.the_descriptor.
    split; [reflexivity |]. split; [| reflexivity].
    unfold CameraInfo.free_address.
    destruct (m !! 50%positive) eqn:E; [| exact E].
    apply not_elem_of_dom. apply is_fresh.
  - reflexivity.
Qed.

(** X14.  With a native library that keeps its books, [Descriptor] always
    returns, with exactly one of a descriptor and an error, and leaves no
    native descriptor behind: what [uvc_get_device_descriptor] allocated is
    freed before the return.  Without a device reference it returns
    [ErrDeviceNotFound] and calls nothing; when the native call fails it
    returns the translated error and frees nothing; when it succeeds it
    calls get and then free on the pointer that get returned, and the value
    it returns holds copies of the numbers and of the three strings, a nil
    string read as the empty string. *)
Theorem Descriptor_frees_what_it_gets
    (newError : Z → option error) (lib : DescriptorLib)
    (this : Device) (w : DescriptorWorld) :
  allocates_and_frees newError lib →
  ∃ info err w',
    Descriptor newError lib this w = Some ((info, err), w')
    ∧ descriptors w' = descriptors w
    ∧ (info = None ↔ err ≠ None)
    ∧ (dev this = nil → err = Some ErrDeviceNotFound ∧ w' = w)
    ∧ (dev this ≠ nil →
       let r := (native_get lib (descriptors w) (dev this)).1.1 in
       let desc := (native_get lib (descriptors w) (dev this)).1.2 in
       let m := (native_get lib (descriptors w) (dev this)).2 in
       err = newError r
       ∧ (err ≠ None →
          calls w' = calls w ++ [C_uvc_get_device_descriptor (dev this)])
       ∧ (err = None →
          calls w' = calls w ++ [C_uvc_get_device_descriptor (dev this);
                                 C_uvc_free_device_descriptor desc]
          ∧ ∃ n, deref m desc = Some n
                 ∧ info = Some {| dd_VendorID := uint16 (idVendor n);
                                  dd_ProductID := uint16 (idProduct n);
                                  dd_BcdUVC := uint16 (dd_bcdUVC n);
                                  dd_SerialNumber := GoString (serialNumber n);
                                  dd_Manufacturer := GoString (manufacturer n);
                                  dd_Product := GoString (product n) |})).
Proof.
  intros [Hget Hfree]. unfold Descriptor.
  destruct (dev this) as [d|] eqn:Hd; simpl.
  - destruct (native_get lib (descriptors w) (Some d)) as [[r desc] m] eqn:Hn.
    specialize (Hget _ _ _ _ _ Hn). simpl.
    destruct (newError r) as [e|] eqn:Hr.
    + subst m. do 3 eexists. split; [reflexivity |]. simpl.
      split; [reflexivity |].
      split; [split; [discriminate | reflexivity] |].
      split; [discriminate |]. intros _.
      split; [reflexivity |].
      split; [reflexivity | discriminate].
    + destruct Hget as (a & n & -> & Hfresh & ->).
      assert (E : deref (<[a := n]> (descriptors w)) (Some a) = Some n)
        by apply lookup_insert_eq.
      rewrite E.
      do 3 eexists. split; [reflexivity |]. simpl.
      split; [rewrite Hfree, delete_insert_eq; now apply delete_id |].
      split; [split; [discriminate | intros H; now elim H] |].
      split; [discriminate |]. intros _.
      split; [reflexivity |].
      split; [intros H; now elim H |]. intros _.
      split; [now rewrite <- app_assoc |].
      exists n. split; reflexivity.
  - do 3 eexists. split; [reflexivity |].
    split; [reflexivity |].
    split; [split; [discriminate | reflexivity] |].
    split; [auto |]. intros H. now elim H.
Qed.

(** The camera's descriptor is read and nothing is left allocated. *)
Lemma Descriptor_frees_what_it_gets_witness :
  ∃ info err w',
    Descriptor Camera.newError CameraInfo.lib
      {| dev := Some 1%positive; handle := nil |} CameraInfo.world
    = Some ((info, err), w')
    ∧ descriptors w' = ∅
    ∧ (info = None ↔ err ≠ None).
Proof.
  destruct (Descriptor_frees_what_it_gets Camera.newError CameraInfo.lib
              {| dev := Some 1%positive; handle := nil |} CameraInfo.world
              CameraInfo_allocates_and_frees)
    as (info & err & w' & Hrun & Hmem & Hxor & _).
  exists info, err, w'. auto.
Defined.

Example Descriptor_of_the_camera :
  Descriptor Camera.newError CameraInfo.lib
    {| dev := Some 1%positive; handle := nil |} CameraInfo.world
  = Some ((Some {| dd_VendorID := 1133; dd_ProductID := 2085; dd_BcdUVC := 256;
                   dd_SerialNumber := EmptyString;
                   dd_Manufacturer := "Acme"%string;
                   dd_Product := "Cam"%string |}, None),
          {| descriptors := ∅;
             calls := [C_uvc_get_device_descriptor (Some 1%positive);
                       C_uvc_free_device_descriptor (Some 50%positive)] |}).
Proof. vm_compute. reflexivity. Qed.

(** ** The dumps *)

Example fmt_04x_pads : fmt_04x 1133 = "046d"%string ∧ fmt_04x 0 = "0000"%string
                       ∧ fmt_04x 65535 = "ffff"%string.
Proof. repeat split. Qed.

Lemma count_lines_app (a b : string) :
  count_lines (a +:+ b) = (count_lines a + count_lines b)%nat.
Proof.
  induction a as [|c a IH]; simpl; [reflexivity |].
  destruct (Ascii.eqb c "010"%char); simpl; now rewrite IH.
Qed.

Lemma pretty_N_go_lines (x : N) :
  ∀ s, count_lines (pretty_N_go x s) = count_lines s.
Proof.
  induction (N.lt_wf_0 x) as [x _ IH]; intros s.
  assert (x = 0 ∨ 0 < x)%N as [-> | Hx] by lia.
  - now rewrite pretty_N_go_0.
  - rewrite pretty_N_go_step by exact Hx.
    rewrite IH by now apply N.div_lt.
    assert (E : Ascii.eqb (pretty_N_char (x `mod` 10)) "010"%char = false).
    { unfold pretty_N_char. repeat case_match; reflexivity. }
    simpl. now rewrite E.
Qed.

Lemma fmt_d_lines (z : Z) : count_lines (fmt_d z) = O.
Proof.
  assert (HN : ∀ n : N, count_lines (pretty n) = O).
  { intros n. unfold pretty, pretty_N. case_decide; [reflexivity |].
    now rewrite pretty_N_go_lines. }
  unfold fmt_d, pretty, pretty_Z. destruct z as [|p|p]; [reflexivity | apply HN |].
  simpl. apply HN.
Qed.

Lemma hex_go_lines (bits : nat) :
  ∀ x acc, count_lines (hex_go bits x acc) = count_lines acc.
Proof.
  induction bits as [|bits IH]; intros x acc; simpl; [reflexivity |].
  destruct (x =? 0)%N; [reflexivity |].
  rewrite IH.
  assert (E : Ascii.eqb (hex_char (x `mod` 16)) "010"%char = false).
  { unfold hex_char. repeat case_match; reflexivity. }
  simpl. now rewrite E.
Qed.

Lemma fmt_04x_lines (z : Z) : count_lines (fmt_04x z) = O.
Proof.
  unfold fmt_04x. rewrite count_lines_app.
  assert (Hz : ∀ n, count_lines (zeros n) = O) by (induction n; simpl; auto).
  rewrite Hz. unfold hex. destruct (Z.to_N z =? 0)%N; [reflexivity |].
  now rewrite hex_go_lines.
Qed.

Lemma append_assoc (a b c : string) : ((a +:+ b) +:+ c = a +:+ (b +:+ c))%string.
Proof.
  induction a as [|x a IH]; [reflexivity |].
  change (String x ((a +:+ b) +:+ c) = String x (a +:+ (b +:+ c)))%string.
  now rewrite IH.
Qed.

Lemma append_inv_head (n x y : string) : (n +:+ x = n +:+ y)%string → x = y.
Proof.
  induction n as [|c n IH]; intros H; [exact H |].
  change (String c (n +:+ x) = String c (n +:+ y))%string in H.
  inversion H. auto.
Qed.

(** Two texts that agree up to and after their first line end. *)
Lemma split_line (a b r1 r2 : string) :
  count_lines a = O → count_lines b = O →
  (a +:+ newline +:+ r1 = b +:+ newline +:+ r2)%string →
  a = b ∧ r1 = r2.
Proof.
  revert b. induction a as [|c a IH]; intros [|c' b] Ha Hb H; simpl in *.
  - inversion H. auto.
  - inversion H; subst c'. simpl in Hb. discriminate.
  - inversion H; subst c. simpl in Ha. discriminate.
  - inversion H; subst c'.
    destruct (Ascii.eqb c "010"%char); [discriminate |].
    destruct (IH b Ha Hb) as [-> ->]; auto.
Qed.

Lemma dump_inj (names : list string) :
  ∀ vs1 vs2 : list Z,
    length vs1 = length names →
    length vs2 = length names →
    dump (combine names (map fmt_d vs1)) = dump (combine names (map fmt_d vs2)) →
    vs1 = vs2.
Proof.
  induction names as [|n names IH]; intros [|v1 vs1] [|v2 vs2] H1 H2 H;
    simpl in *; try discriminate; [reflexivity |].
  unfold dump_line in H. simpl in H.
  rewrite !append_assoc in H.
  apply append_inv_head in H. simpl in H. inversion H as [H'].
  apply split_line in H'; try apply fmt_d_lines.
  destruct H' as [Hv Hrest].
  apply (inj pretty) in Hv. subst v2. f_equal.
  apply IH; auto.
Qed.

Lemma dump_lines (fields : list (string * string)) :
  count_lines (dump fields)
  = (length fields
     + list_sum (map (fun f => count_lines f.1 + count_lines f.2) fields))%nat.
Proof.
  induction fields as [|[n v] fields IH]; simpl; [reflexivity |].
  unfold dump_line. simpl. rewrite !count_lines_app. simpl.
  rewrite IH. lia.
Qed.

(** X15.  The dumps of the four catalog values show exactly their exported
    numbers: two values have the same dump if and only if they agree on
    every field the dump names.  What a dump does not name it does not
    show: the native pointer of each value and the [Intervals] of a
    [FrameDescriptor]. *)
Theorem dumps_tell_the_fields_apart :
  (∀ a b, ControlInterface_String a = ControlInterface_String b
          ↔ ControlInterface_fields a = ControlInterface_fields b)
  ∧ (∀ a b, StreamInterface_String a = StreamInterface_String b
            ↔ StreamInterface_fields a = StreamInterface_fields b)
  ∧ (∀ a b, FormatDescriptor_String a = FormatDescriptor_String b
            ↔ FormatDescriptor_fields a = FormatDescriptor_fields b)
  ∧ (∀ a b, FrameDescriptor_String a = FrameDescriptor_String b
            ↔ FrameDescriptor_fields a = FrameDescriptor_fields b).
Proof.
  split; [| split; [| split]]; intros a b; split; intros H.
  - apply (dump_inj ["bcdUVC"; "InterfaceNumber"; "EndpointAddress";
                     "ClockFrequency"]%string); [reflexivity | reflexivity | exact H].
  - unfold ControlInterface_fields in H. inversion H as [[H1 H2 H3 H4]].
    unfold ControlInterface_String. now rewrite H1, H2, H3, H4.
  - apply (dump_inj ["InterfaceNumber"; "EndpointAddress"; "TerminalLink"]%string);
      [reflexivity | reflexivity | exact H].
  - unfold StreamInterface_fields in H. inversion H as [[H1 H2 H3]].
    unfold StreamInterface_String. now rewrite H1, H2, H3.
  - apply (dump_inj ["Subtype"; "FormatIndex"; "NumFrameDescriptors"; "BitsPerPixel";
                     "Flags"; "DefaultFrameIndex"; "AspectRatioX"; "AspectRatioY";
                     "InterlaceFlags"; "CopyProtect"; "VariableSize"]%string);
      [reflexivity | reflexivity | exact H].
  - unfold FormatDescriptor_fields in H.
    inversion H as [[H1 H2 H3 H4 H5 H6 H7 H8 H9 H10 H11]].
    unfold FormatDescriptor_String.
    now rewrite H1, H2, H3, H4, H5, H6, H7, H8, H9, H10, H11.
  - apply (dump_inj ["Subtype"; "FrameIndex"; "Capabilities"; "Width"; "Height";
                     "MinBitRate"; "MaxBitRate"; "MaxVideoFrameBufferSize";
                     "DefaultFrameInterval"; "MinFrameInterval"; "MaxFrameInterval";
                     "FrameIntervalStep"; "FrameIntervalType"; "BytesPerLine"]%string);
      [reflexivity | reflexivity | exact H].
  - unfold FrameDescriptor_fields in H.
    inversion H as [[H1 H2 H3 H4 H5 H6 H7 H8 H9 H10 H11 H12 H13 H14]].
    unfold FrameDescriptor_String.
    now rewrite H1, H2, H3, H4, H5, H6, H7, H8, H9, H10, H11, H12, H13, H14.
Qed.

(** X16.  Every dump is made of whole lines, one per field: four for a
    control interface, three for a stream interface, eleven for a format
    and fourteen for a frame, whatever the values.  The dump of a device
    descriptor has six lines and, the three strings being written as they
    are, one more for every line end inside them. *)
Theorem dumps_have_one_line_per_field :
  (∀ i, count_lines (ControlInterface_String i) = 4%nat)
  ∧ (∀ i, count_lines (StreamInterface_String i) = 3%nat)
  ∧ (∀ d, count_lines (FormatDescriptor_String d) = 11%nat)
  ∧ (∀ d, count_lines (FrameDescriptor_String d) = 14%nat)
  ∧ (∀ d, count_lines (DeviceDescriptor_String d)
          = (6 + count_lines (dd_SerialNumber d) + count_lines (dd_Manufacturer d)
             + count_lines (dd_Product d))%nat).
Proof.
  split; [| split; [| split; [| split]]]; intros x.
  - unfold ControlInterface_String. rewrite dump_lines. simpl.
    rewrite !fmt_d_lines. reflexivity.
  - unfold StreamInterface_String. rewrite dump_lines. simpl.
    rewrite !fmt_d_lines. reflexivity.
  - unfold FormatDescriptor_String. rewrite dump_lines. simpl.
    rewrite !fmt_d_lines. reflexivity.
  - unfold FrameDescriptor_String. rewrite dump_lines. simpl.
    rewrite !fmt_d_lines. reflexivity.
  - unfold DeviceDescriptor_String. rewrite dump_lines. simpl.
    rewrite !fmt_d_lines, !fmt_04x_lines. lia.
Qed.

(** ** [StreamInterfaces] next to [Close]: all or nothing *)

Section Snapshot.

Variable lib : NativeLib.
Variable fuel : nat.
Variable s0 s0' : State.
Variable r0 : list StreamInterface.
Hypothesis free : mu s0 = unlocked.
Hypothesis alone : run lib (StreamInterfaces fuel) s0 = Done r0 s0'.

Lemma run_step {R} (t t' : Thread R) (s s' : State) :
  thread_step lib t s = TNext t' s' →
  run lib (code t) s = run lib (code t') s'.
Proof.
  destruct t as [h p]. unfold thread_step. simpl.
  destruct p as [r| |X e k]; simpl; intros H.
  - discriminate.
  - now inversion H.
  - destruct (do_eff lib e s) as [x s1| |]; inversion H; subst. reflexivity.
Qed.

Lemma acquire_keeps_handle {R} (t t' : Thread R) (s s' : State) :
  held t = HNone →
  guarded (held t) (code t) →
  thread_step lib t s = TNext t' s' →
  handle (this s') = handle (this s).
Proof.
  destruct t as [h p]. unfold thread_step. simpl. intros -> Hg H.
  destruct p as [r| |X e k]; simpl in *.
  - discriminate.
  - now inversion H.
  - destruct Hg as [Ha _].
    destruct (do_eff lib e s) as [x s1| |] eqn:E; inversion H; subst; clear H.
    destruct e; simpl in *; try congruence;
      try (destruct c; congruence);
      try destruct (writer (mu s)); try destruct (readers (mu s));
      try discriminate E; inversion E; subst; reflexivity.
Qed.

Lemma snapshot_start : snapshot_inv lib fuel s0 r0 (start (StreamInterfaces fuel) Close s0).
Proof.
  destruct (StreamInterfaces_guarded fuel) as [Hga Hsa].
  destruct Close_guarded as [Hgb Hsb].
  unfold snapshot_inv, sys_inv, one_section, start. simpl. rewrite free.
  split; [auto |]. split; [auto |]. split; [auto |]. split; [auto |].
  split; intros [H | [r H]]; discriminate.
Qed.

Lemma snapshot_step (c c' : Sys (list StreamInterface) (option error)) :
  snapshot_inv lib fuel s0 r0 c →
  sys_step lib c c' →
  snapshot_inv lib fuel s0 r0 c'.
Proof.
  intros (Hi & Ha & Hb & H2 & H3 & H5) Hs.
  destruct (StreamInterfaces_guarded fuel) as [_ Hsa].
  destruct Close_guarded as [_ Hsb].
  pose proof (sys_step_inv lib c c' Hi Hs) as Hi'.
  destruct Hi as (Hga & Hgb & Hmu).
  destruct Hs as [c t s' Hs | c t s' Hs].
  - (* StreamInterfaces moves *)
    pose proof (thread_step_one_section lib HRead _ _ _ _ _ Hsa Hga Ha Hs) as Ha'.
    pose proof (run_step _ _ _ _ Hs) as Hrun.
    unfold snapshot_inv. simpl.
    split; [exact Hi' |]. split; [exact Ha' |]. split; [exact Hb |].
    assert (Hpast : held t = HRead ∨ (∃ r, code t = Ret r)).
    { destruct Ha' as [[Hh Hc] | [[Hh _] | [_ Hc]]]; auto.
      exfalso. destruct Ha as [[Hh0 Hc0] | [[Hh0 Hn0] | [_ [r Hc0]]]].
      - unfold thread_step in Hs. rewrite Hc0 in Hs.
        unfold StreamInterfaces, rlocked, perform, mbind, Prog_bind in Hs.
        simpl in Hs. destruct (writer (mu (shared c))); inversion Hs; subst.
        simpl in Hh. discriminate.
      - unfold thread_step in Hs.
        destruct (code (thA c)) as [r| |X e k] eqn:Ec; try discriminate.
        + inversion Hs; subst. simpl in Hh. congruence.
        + destruct Hn0 as [He Hk].
          destruct (do_eff lib e (shared c)); inversion Hs; subst. simpl in Hc.
          pose proof (Hk x) as Hno. rewrite Hc in Hno.
          unfold StreamInterfaces, rlocked, perform, mbind, Prog_bind in Hno.
          simpl in Hno. tauto.
      - unfold thread_step in Hs. rewrite Hc0 in Hs. discriminate. }
    split; [| split].
    + intros Hc _. exfalso.
      destruct Hpast as [Hh | [r Hr]].
      * destruct Ha' as [[Hh' _] | [[_ Hn] | [Hh' _]]]; try congruence.
        rewrite Hc in Hn.
        unfold StreamInterfaces, rlocked, perform, mbind, Prog_bind in Hn.
        simpl in Hn. tauto.
      * rewrite Hc in Hr. discriminate.
    + (* Close is where it was; the handle is as it was *)
      intros Hpos r s1 Hr.
      assert (Hb' : ∃ rb, code (thB c) = Ret rb).
      { destruct Hpos as [Hw | Hr']; [| exact Hr'].
        exfalso. destruct Ha as [[Hh0 Hc0] | [[Hh0 _] | [_ [ra Hc0]]]].
        - unfold thread_step in Hs. rewrite Hc0 in Hs.
          rewrite Hh0, Hw in Hmu. simpl in Hmu. inversion Hmu as [Hmu'].
          unfold StreamInterfaces, rlocked, perform, mbind, Prog_bind in Hs.
          simpl in Hs. rewrite <- Hmu' in Hs. discriminate.
        - rewrite Hh0, Hw in Hmu. discriminate.
        - unfold thread_step in Hs. rewrite Hc0 in Hs. discriminate. }
      destruct Hb' as [rb Hcb].
      assert (Hold : handle (this (shared c)) = nil).
      { apply (H3 (or_intror (ex_intro _ rb Hcb)) rb). now rewrite Hcb. }
      rewrite Hcb in Hr. simpl in Hr. inversion Hr; subst r s1.
      transitivity (handle (this (shared c))); [| exact Hold].
      destruct Ha as [[Hh0 Hc0] | [[Hh0 _] | [_ [ra Hc0]]]].
      * eapply acquire_keeps_handle; [exact Hh0 | exact Hga | exact Hs].
      * eapply reader_step_keeps_handle; [exact Hh0 | exact Hga | exact Hs].
      * unfold thread_step in Hs. rewrite Hc0 in Hs. discriminate.
    + (* what StreamInterfaces will return *)
      intros _. rewrite <- Hrun.
      destruct Ha as [[Hh0 Hc0] | [[Hh0 _] | [_ [ra Hc0]]]].
      * rewrite Hc0.
        destruct Hb as [[Hhb Hcb] | [[Hhb _] | [Hhb [rb Hcb]]]].
        -- rewrite (H2 Hc0 Hcb). eauto.
        -- exfalso. unfold thread_step in Hs. rewrite Hc0 in Hs.
           rewrite Hh0, Hhb in Hmu. simpl in Hmu. inversion Hmu as [Hmu'].
           unfold StreamInterfaces, rlocked, perform, mbind, Prog_bind in Hs.
           simpl in Hs. rewrite <- Hmu' in Hs. discriminate.
        -- assert (Hold : handle (this (shared c)) = nil).
           { apply (H3 (or_intror (ex_intro _ rb Hcb)) rb). now rewrite Hcb. }
           rewrite Hh0, Hhb in Hmu. simpl in Hmu. inversion Hmu as [Hmu'].
           rewrite StreamInterfaces_closed; [eauto | exact Hold | now symmetry].
      * apply H5. now left.
      * unfold thread_step in Hs. rewrite Hc0 in Hs. discriminate.
  - (* Close moves *)
    pose proof (thread_step_one_section lib HWrite _ _ _ _ _ Hsb Hgb Hb Hs) as Hb'.
    pose proof (run_step _ _ _ _ Hs) as Hrun.
    unfold snapshot_inv. simpl.
    split; [exact Hi' |]. split; [exact Ha |]. split; [exact Hb' |].
    assert (Hnotin : held (thA c) ≠ HRead).
    { intros Hh. rewrite Hh in Hmu.
      destruct Hb as [[Hhb Hcb] | [[Hhb _] | [_ [rb Hcb]]]].
      - unfold thread_step in Hs. rewrite Hcb in Hs.
        rewrite Hhb in Hmu. simpl in Hmu. inversion Hmu as [Hmu'].
        unfold Close, locked, perform, mbind, Prog_bind in Hs.
        simpl in Hs. rewrite <- Hmu' in Hs. discriminate.
      - rewrite Hhb in Hmu. discriminate.
      - unfold thread_step in Hs. rewrite Hcb in Hs. discriminate. }
    split; [| split].
    + intros _ Hc. exfalso.
      destruct Hb as [[Hhb Hcb] | [[Hhb Hn] | [_ [rb Hcb]]]].
      * unfold thread_step in Hs. rewrite Hcb in Hs.
        unfold Close, locked, perform, mbind, Prog_bind in Hs. simpl in Hs.
        destruct (writer (mu (shared c))); try discriminate.
        destruct (readers (mu (shared c))); inversion Hs; subst.
        simpl in Hb'. destruct Hb' as [[Hh' _] | [[_ Hn'] | [Hh' _]]];
          try discriminate.
      * unfold thread_step in Hs.
        destruct (code (thB c)) as [r| |X e k] eqn:Ec; try discriminate.
        -- inversion Hs; subst. rewrite Hc in Ec. discriminate.
        -- destruct Hn as [He Hk].
           destruct (do_eff lib e (shared c)); inversion Hs; subst. simpl in Hc.
           pose proof (Hk x) as Hno. rewrite Hc in Hno.
           unfold Close, locked, perform, mbind, Prog_bind in Hno.
           simpl in Hno. tauto.
      * unfold thread_step in Hs. rewrite Hcb in Hs. discriminate.
    + intros _. rewrite <- Hrun.
      destruct Hb as [[Hhb Hcb] | [[Hhb _] | [_ [rb Hcb]]]].
      * intros r s1 Hr. rewrite Hcb in Hr.
        assert (Hfree : mu (shared c) = unlocked).
        { unfold thread_step in Hs. rewrite Hcb in Hs.
          unfold Close, locked, perform, mbind, Prog_bind in Hs. simpl in Hs.
          destruct (shared c) as [dv [rd wr] m tr]. simpl in *.
          destruct wr; try discriminate. destruct rd; try discriminate.
          reflexivity. }
        rewrite Close_run in Hr by exact Hfree. now inversion Hr.
      * apply H3. now left.
      * unfold thread_step in Hs. rewrite Hcb in Hs. discriminate.
    + intros Hpos.
      destruct Hpos as [Hh | [ra Hca]]; [contradiction |].
      destruct (H5 (or_intror (ex_intro _ ra Hca))) as (r & s1 & Hr & Hgood).
      rewrite Hca in Hr. simpl in Hr. inversion Hr; subst.
      exists r, s'. rewrite Hca. split; [reflexivity | exact Hgood].
Qed.

Lemma snapshot_reachable (c : Sys (list StreamInterface) (option error)) :
  reachable lib (start (StreamInterfaces fuel) Close s0) c →
  snapshot_inv lib fuel s0 r0 c.
Proof.
  intros Hr. pose proof snapshot_start as H0.
  unfold reachable in Hr.
  induction Hr as [c | c c1 c2 Hs Hr IH]; [exact H0 |].
  apply IH. eapply snapshot_step; eassumption.
Qed.

End Snapshot.

(** X18.  [StreamInterfaces] is all or nothing next to [Close].  If, run
    alone from a state, it would return the list [r0], then in every
    interleaving with a concurrent [Close] from that state it never reads
    through a freed or nil pointer, and when it returns it returns [r0],
    the whole list, or the empty slice: no partial list. *)
Theorem StreamInterfaces_beside_Close_is_all_or_nothing
    (lib : NativeLib) (fuel : nat) (s0 s0' : State) (r0 : list StreamInterface)
    (c : Sys (list StreamInterface) (option error)) :
  mu s0 = unlocked →
  run lib (StreamInterfaces fuel) s0 = Done r0 s0' →
  reachable lib (start (StreamInterfaces fuel) Close s0) c →
  thread_step lib (thA c) (shared c) ≠ TFaulted
  ∧ ∀ r, code (thA c) = Ret r → r = r0 ∨ r = [].
Proof.
  intros Hm Halone Hr.
  destruct (snapshot_reachable lib fuel s0 s0' r0 Hm Halone c Hr)
    as (_ & Ha & _ & _ & _ & H5).
  split.
  - unfold thread_step.
    destruct Ha as [[_ Hc] | [[Hh _] | [_ [r Hc]]]].
    + rewrite Hc. unfold StreamInterfaces, rlocked, perform, mbind, Prog_bind.
      simpl. destruct (writer (mu (shared c))); discriminate.
    + destruct (H5 (or_introl Hh)) as (r & s' & Hrun & _).
      destruct (code (thA c)) as [r1| |X e k]; try discriminate.
      simpl in Hrun. destruct (do_eff lib e (shared c)); discriminate.
    + rewrite Hc. discriminate.
  - intros r Hc.
    destruct (H5 (or_intror (ex_intro _ r Hc))) as (r' & s' & Hrun & Hgood).
    rewrite Hc in Hrun. simpl in Hrun. inversion Hrun; subst. exact Hgood.
Qed.

(** [Close] first, then [StreamInterfaces]: nothing. *)
Lemma Close_before_StreamInterfaces :
  match exec Camera.lib [false; false; false; false; false; true; true; true]
          (start (StreamInterfaces 8) Close Camera.open_state) with
  | Some c => code (thA c) = Ret []
  | None => False
  end.
Proof. vm_compute. reflexivity. Qed.

Lemma StreamInterfaces_beside_Close_is_all_or_nothing_witness :
  ∃ c, exec Camera.lib [false; false; false; false; false; true; true; true]
         (start (StreamInterfaces 8) Close Camera.open_state) = Some c
       ∧ thread_step Camera.lib (thA c) (shared c) ≠ TFaulted
       ∧ ∀ r, code (thA c) = Ret r →
              r = [mkStreamInterface (Some 20%positive) Camera.itf1;
                   mkStreamInterface (Some 21%positive) Camera.itf2]
              ∨ r = [].
Proof.
  assert (H := Close_before_StreamInterfaces).
  destruct (exec Camera.lib [false; false; false; false; false; true; true; true]
              (start (StreamInterfaces 8) Close Camera.open_state))
    as [c|] eqn:E; [| contradiction].
  exists c. split; [reflexivity |].
  apply (StreamInterfaces_beside_Close_is_all_or_nothing Camera.lib 8
           Camera.open_state Camera.open_state).
  - reflexivity.
  - rewrite (StreamInterfaces_run Camera.lib _ 10%positive Camera.the_handle
               [(20%positive, Camera.itf1); (21%positive, Camera.itf2)] 8);
      [reflexivity | reflexivity | reflexivity | reflexivity
      | exact Camera_stream_list | simpl; lia].
  - exact (exec_reachable Camera.lib _ _ _ E).
Defined.

Lemma catalog_queries_only_read_witness :
  ∃ l s', run Camera.lib (StreamInterfaces 8) Camera.open_state = Done l s'
          ∧ s' = Camera.open_state.
Proof.
  destruct (catalog_queries_only_read Camera.lib Camera.open_state) as (_ & H & _).
  pose (o := run Camera.lib (StreamInterfaces 8) Camera.open_state).
  assert (E : run Camera.lib (StreamInterfaces 8) Camera.open_state = o) by reflexivity.
  vm_compute in o. subst o.
  do 2 eexists. split; [exact E |]. exact (H 8%nat _ _ E).
Defined.
